(** * provider/mem: the in-memory alert provider

    A shallow embedding of [provider/mem/mem.go] and the properties of its
    store, merge policy, garbage collector and subscription registry.

    Conventions of the embedding.
    - A Go map is a [gmap]; a [range] loop over it visits the entries in the
      order of [map_to_list].  Go leaves that order unspecified: the lemmas
      on the loops are stated for any list of entries, and the statements on
      the operations do not depend on the order.
    - A channel is a heap cell ([chan]) reached through a location, because
      the registry, the garbage collector and the consumer of an iterator
      all hold the same channel.
    - The mutex is not represented: every operation below is one critical
      section.  A goroutine that cannot go on inside its critical section
      (a [select] with no ready case) is reported as waiting ([Park],
      [Waits], [PutParked]); what the other goroutines then do to let it go
      on is outside the operation.
    - Where the Go runtime chooses (a [select] with several ready cases) the
      choice is an argument of the operation.
    - [*types.Alert], its [Merge] and [types.Marker] belong to other
      packages: the alert type is a parameter with the operations this
      package calls, and the marker is the record of the [Delete] calls it
      receives.  A pointer to an alert is not nil and stands for the alert
      it points to. *)

From Stdlib Require Import ZArith Bool List Lia.
From stdpp Require Import base decidable option numbers list gmap fin_maps.

Module mem.

Local Open Scope Z_scope.

(** ** Collaborators outside the package *)

(** [model.Fingerprint] is a [uint64]. *)
Definition Fingerprint : Type := N.

#[global] Instance Fingerprint_eq_dec : EqDecision Fingerprint := N.eq_dec.
#[global] Instance Fingerprint_countable : Countable Fingerprint := N_countable.

(** [time.Time], as an instant on the clock's axis (nanoseconds). *)
Definition Time : Type := Z.

(** [t.Before(u)] and [t.After(u)] of package [time]: both strict. *)
Definition Before (t u : Time) : bool := t <? u.
Definition After (t u : Time) : bool := u <? t.

(** [time.Duration] *)
Definition Duration : Type := Z.

(** What this package uses of [*types.Alert]: the method [Fingerprint()],
    the fields [StartsAt] and [EndsAt], and the method [Merge].  The type
    itself is declared in package [types]. *)
Class AlertOps (Alert : Type) : Type := {
  Alert_Fingerprint : Alert → Fingerprint;
  StartsAt : Alert → Time;
  EndsAt : Alert → Time;
  Merge : Alert → Alert → Alert;
}.

(** Go's [error]; [None] is [nil].  The only error value this package
    returns is [provider.ErrNotFound]. *)
Inductive error : Type := ErrNotFound.

(** Go's [int], 64 bits wide: the value a computation wraps to. *)
Definition int_wrap (z : Z) : Z := (z + 2 ^ 63) mod 2 ^ 64 - 2 ^ 63.

(** ** Channels *)

(** A channel of capacity [chan_cap] with its buffered elements, oldest
    first. *)
Record chan (T : Type) : Type := mkChan {
  chan_buf : list T;
  chan_cap : Z;
  chan_closed : bool;
}.
Arguments mkChan {T} _ _ _.
Arguments chan_buf {T} _.
Arguments chan_cap {T} _.
Arguments chan_closed {T} _.

(** [make(chan T, n)] *)
Definition make_chan {T : Type} (n : Z) : chan T :=
  {| chan_buf := []; chan_cap := n; chan_closed := false |}.

(** The [nil] channel: no operation on it is ever ready. *)
Definition nil_chan {T : Type} : chan T := make_chan 0.

(** A goroutine at a channel operation goes on, waits, or panics. *)
Inductive step (S : Type) : Type :=
| Proceed (s : S)
| Park
| Panic.
Arguments Proceed {S} _.
Arguments Park {S}.
Arguments Panic {S}.

(** Whether the buffer has room. *)
Definition chan_has_room {T : Type} (c : chan T) : bool :=
  Z.of_nat (length (chan_buf c)) <? chan_cap c.

(** A send can go on when the buffer has room; on a closed channel it goes
    on too, and panics. *)
Definition send_ready {T : Type} (c : chan T) : bool :=
  chan_closed c || chan_has_room c.

(** A receive can go on when a value is buffered or the channel is closed. *)
Definition recv_ready {T : Type} (c : chan T) : bool :=
  match chan_buf c with
  | [] => chan_closed c
  | _ :: _ => true
  end.

(** [c <- x] with no receiver waiting. *)
Definition chan_send {T : Type} (c : chan T) (x : T) : step (chan T) :=
  if chan_closed c then Panic
  else if chan_has_room c then
    Proceed {| chan_buf := chan_buf c ++ [x];
               chan_cap := chan_cap c;
               chan_closed := false |}
  else Park.

(** [<-c]: the received value ([None] is the zero value read from a closed,
    drained channel) and the channel afterwards. *)
Definition chan_recv {T : Type} (c : chan T) : step (option T * chan T) :=
  match chan_buf c with
  | x :: rest =>
      Proceed (Some x, {| chan_buf := rest;
                          chan_cap := chan_cap c;
                          chan_closed := chan_closed c |})
  | [] => if chan_closed c then Proceed (None, c) else Park
  end.

(** [close(c)]: closing a closed channel panics. *)
Definition chan_close {T : Type} (c : chan T) : step (chan T) :=
  if chan_closed c then Panic
  else Proceed {| chan_buf := chan_buf c;
                  chan_cap := chan_cap c;
                  chan_closed := true |}.

(** How a loop over channel operations ends, with the state it has reached:
    it runs to its end, it waits at an operation that is not ready, or it
    panics. *)
Inductive outcome (S : Type) : Type :=
| Done (s : S)
| Waits (s : S)
| Panics (s : S).
Arguments Done {S} _.
Arguments Waits {S} _.
Arguments Panics {S} _.

Definition outcome_state {S : Type} (o : outcome S) : S :=
  match o with
  | Done s => s
  | Waits s => s
  | Panics s => s
  end.

(** ** The provider *)

Definition alertChannelLength : Z := 200.

(** Locations of channels on the heap. *)
Definition loc : Type := N.

#[global] Instance loc_eq_dec : EqDecision loc := N.eq_dec.
#[global] Instance loc_countable : Countable loc := N_countable.

Record listeningAlerts : Type := mkListening {
  l_alerts : loc;   (* alerts chan *types.Alert *)
  l_done : loc;     (* done   chan struct{}     *)
}.

Section Provider.

Context {Alert : Type} `{AlertOps Alert}.

(** The channels made by [Subscribe] and [GetPending]. *)
Record Heap : Type := mkHeap {
  queues : gmap loc (chan Alert);
  signals : gmap loc (chan unit);
}.

(** A location with no cell behaves as the nil channel. *)
Definition queue_at (h : Heap) (c : loc) : chan Alert :=
  default nil_chan (queues h !! c).
Definition signal_at (h : Heap) (c : loc) : chan unit :=
  default nil_chan (signals h !! c).

Definition set_queue (h : Heap) (c : loc) (q : chan Alert) : Heap :=
  {| queues := <[c := q]> (queues h); signals := signals h |}.
Definition set_signal (h : Heap) (c : loc) (d : chan unit) : Heap :=
  {| queues := queues h; signals := <[c := d]> (signals h) |}.

(** [type Alerts struct]; [mtx] is left out and [marker] is the sequence of
    [Delete] calls the [types.Marker] has received, oldest first. *)
Record Alerts : Type := mkAlerts {
  alerts : gmap Fingerprint Alert;
  marker : list Fingerprint;
  intervalGC : Duration;
  stopGC : chan unit;
  listeners : gmap Z listeningAlerts;
  next : Z;
}.

Definition set_alerts (a : Alerts) (m : gmap Fingerprint Alert) : Alerts :=
  {| alerts := m; marker := marker a; intervalGC := intervalGC a;
     stopGC := stopGC a; listeners := listeners a; next := next a |}.

(** [NewAlerts]; the goroutine it starts is [runGC] below. *)
Definition NewAlerts (m : list Fingerprint) (intervalGC : Duration)
  : Alerts * option error :=
  ({| alerts := ∅; marker := m; intervalGC := intervalGC;
      stopGC := make_chan 0; listeners := ∅; next := 0 |}, None).

(** *** Get *)

Definition Get (a : Alerts) (fp : Fingerprint) : option Alert * option error :=
  match alerts a !! fp with
  | None => (None, Some ErrNotFound)
  | Some alert => (Some alert, None)
  end.

(** *** Put *)

(** The test of lines 189-190. *)
Definition overlaps (old alert : Alert) : bool :=
  (After (EndsAt alert) (StartsAt old) && Before (EndsAt alert) (EndsAt old))
  || (After (StartsAt alert) (StartsAt old) && Before (StartsAt alert) (EndsAt old)).

(** Lines 185-195 for one alert: the alert that is stored and broadcast. *)
Definition resolve (m : gmap Fingerprint Alert) (alert : Alert) : Alert :=
  match m !! Alert_Fingerprint alert with
  | Some old => if overlaps old alert then Merge old alert else alert
  | None => alert
  end.

Definition store (m : gmap Fingerprint Alert) (alert : Alert)
  : gmap Fingerprint Alert :=
  <[Alert_Fingerprint alert := resolve m alert]> m.

(** The cases of a [select] between a send into a queue and a receive from
    [done]. *)
Inductive sel : Type := SelSend | SelDone.

(** The case such a [select] takes: the one that is ready, [pick] when both
    are, none when neither is. *)
Definition select_case (pick : sel) (q : chan Alert) (d : chan unit)
  : option sel :=
  match send_ready q, recv_ready d with
  | true, true => Some pick
  | true, false => Some SelSend
  | false, true => Some SelDone
  | false, false => None
  end.

(** Lines 198-201: [select { case l.alerts <- alert: case <-l.done: }]. *)
Definition select_send (pick : sel) (h : Heap) (l : listeningAlerts)
    (alert : Alert) : step Heap :=
  let q := queue_at h (l_alerts l) in
  let d := signal_at h (l_done l) in
  match select_case pick q d with
  | Some SelSend =>
      match chan_send q alert with
      | Proceed q' => Proceed (set_queue h (l_alerts l) q')
      | Park => Park
      | Panic => Panic
      end
  | Some SelDone =>
      match chan_recv d with
      | Proceed (_, d') => Proceed (set_signal h (l_done l) d')
      | Park => Park
      | Panic => Panic
      end
  | None => Park
  end.

(** Lines 197-202: the loop over the listeners. *)
Fixpoint broadcast (pick : Z → sel) (h : Heap)
    (ls : list (Z * listeningAlerts)) (alert : Alert) : outcome Heap :=
  match ls with
  | [] => Done h
  | (i, l) :: ls' =>
      match select_send (pick i) h l alert with
      | Proceed h' => broadcast pick h' ls' alert
      | Park => Waits h
      | Panic => Panics h
      end
  end.

(** How a call of [Put] ends: it returns; or it waits in the [select] of
    line 198, holding the lock; or it panics.  Each carries the state at
    that point. *)
Inductive PutResult : Type :=
| PutReturned (a : Alerts) (h : Heap) (err : option error)
| PutParked (a : Alerts) (h : Heap)
| PutPanicked (a : Alerts) (h : Heap).

(** [Put(alerts...)].  [pick k i] is the runtime's choice at the [select] for
    the [k]-th alert of the call and listener [i]. *)
Fixpoint Put (pick : nat → Z → sel) (a : Alerts) (h : Heap)
    (batch : list Alert) : PutResult :=
  match batch with
  | [] => PutReturned a h None
  | alert :: rest =>
      let alert' := resolve (alerts a) alert in
      let a' := set_alerts a (store (alerts a) alert) in
      match broadcast (pick O) h (map_to_list (listeners a')) alert' with
      | Done h' => Put (λ k, pick (S k)) a' h' rest
      | Waits h' => PutParked a' h'
      | Panics h' => PutPanicked a' h'
      end
  end.

Definition put_state (r : PutResult) : Alerts * Heap :=
  match r with
  | PutReturned a h _ => (a, h)
  | PutParked a h => (a, h)
  | PutPanicked a h => (a, h)
  end.

(** The store after the alerts of a call have been written, whatever becomes
    of the broadcasts. *)
Definition store_all (m : gmap Fingerprint Alert) (batch : list Alert)
  : gmap Fingerprint Alert :=
  foldl store m batch.

(** *** Snapshots and subscriptions *)

Definition max (a b : Z) : Z := if a >? b then a else b.

Definition getPending (a : Alerts) : list Alert * option error :=
  ((map_to_list (alerts a)).*2, None).

(** What [provider.NewAlertIterator(ch, done, err)] is given. *)
Record AlertIterator : Type := NewAlertIterator {
  it_ch : loc;
  it_done : loc;
  it_err : option error;
}.

Definition fresh_loc {V : Type} (m : gmap loc V) : loc := fresh (dom m).

(** Lines 116-118: the snapshot is sent into the new channel, which no other
    goroutine has yet. *)
Fixpoint preload (q : chan Alert) (snapshot : list Alert) : step (chan Alert) :=
  match snapshot with
  | [] => Proceed q
  | x :: rest =>
      match chan_send q x with
      | Proceed q' => preload q' rest
      | Park => Park
      | Panic => Panic
      end
  end.

(** Lines 120-124. *)
Definition register (a : Alerts) (ch done : loc) : Alerts :=
  let i := next a in
  {| alerts := alerts a; marker := marker a; intervalGC := intervalGC a;
     stopGC := stopGC a;
     listeners := <[i := mkListening ch done]> (listeners a);
     next := int_wrap (next a + 1) |}.

Definition Subscribe (a : Alerts) (h : Heap)
  : step (Alerts * Heap * AlertIterator) :=
  let '(snapshot, err) := getPending a in
  let ch := fresh_loc (queues h) in
  let done := fresh_loc (signals h) in
  match preload (make_chan (max (Z.of_nat (length snapshot)) alertChannelLength))
                snapshot with
  | Proceed q =>
      let h' := {| queues := <[ch := q]> (queues h);
                   signals := <[done := make_chan 0]> (signals h) |} in
      Proceed (register a ch done, h', NewAlertIterator ch done err)
  | Park => Park
  | Panic => Panic
  end.

(** The goroutine of lines 139-149: the alerts it has still to send. *)
Record producer : Type := mkProducer {
  p_pending : list Alert;
  p_ch : loc;
  p_done : loc;
}.

Definition GetPending (a : Alerts) (h : Heap)
  : Heap * AlertIterator * producer :=
  let ch := fresh_loc (queues h) in
  let done := fresh_loc (signals h) in
  let h' := {| queues := <[ch := make_chan alertChannelLength]> (queues h);
               signals := <[done := make_chan 0]> (signals h) |} in
  let '(snapshot, err) := getPending a in
  (h', NewAlertIterator ch done err, mkProducer snapshot ch done).

(** [close(ch)] on the heap; closing the nil channel panics. *)
Definition close_queue (h : Heap) (ch : loc) : step Heap :=
  match queues h !! ch with
  | None => Panic
  | Some q =>
      match chan_close q with
      | Proceed q' => Proceed (set_queue h ch q')
      | Park => Park
      | Panic => Panic
      end
  end.

(** One step of that goroutine: the [select] of lines 143-147 for the next
    alert, or its leaving, at the end of the snapshot or on [done], with the
    deferred [close(ch)].  [None] says that it has left. *)
Definition producer_step (pick : sel) (h : Heap) (p : producer)
  : step (Heap * option producer) :=
  let leave (h : Heap) : step (Heap * option producer) :=
    match close_queue h (p_ch p) with
    | Proceed h' => Proceed (h', None)
    | Park => Park
    | Panic => Panic
    end in
  match p_pending p with
  | [] => leave h
  | x :: rest =>
      let q := queue_at h (p_ch p) in
      let d := signal_at h (p_done p) in
      match select_case pick q d with
      | Some SelSend =>
          match chan_send q x with
          | Proceed q' =>
              Proceed (set_queue h (p_ch p) q',
                       Some (mkProducer rest (p_ch p) (p_done p)))
          | Park => Park
          | Panic => Panic
          end
      | Some SelDone =>
          match chan_recv d with
          | Proceed (_, d') => leave (set_signal h (p_done p) d')
          | Park => Park
          | Panic => Panic
          end
      | None => Park
      end
  end.

(** *** The consumer of an iterator *)

(** The consumer cancels by closing [done]. *)
Definition cancel (h : Heap) (done : loc) : step Heap :=
  match signals h !! done with
  | None => Panic
  | Some d =>
      match chan_close d with
      | Proceed d' => Proceed (set_signal h done d')
      | Park => Park
      | Panic => Panic
      end
  end.

(** The consumer receives from the queue. *)
Definition receive (h : Heap) (ch : loc) : step (option Alert * Heap) :=
  match chan_recv (queue_at h ch) with
  | Proceed (x, q') => Proceed (x, set_queue h ch q')
  | Park => Park
  | Panic => Panic
  end.

(** *** Close *)

Definition set_stopGC (a : Alerts) (c : chan unit) : Alerts :=
  {| alerts := alerts a; marker := marker a; intervalGC := intervalGC a;
     stopGC := c; listeners := listeners a; next := next a |}.

Definition Close (a : Alerts) : step (Alerts * option error) :=
  match chan_close (stopGC a) with
  | Proceed c => Proceed (set_stopGC a c, None)
  | Park => Park
  | Panic => Panic
  end.

(** *** The garbage collector *)

(** Lines 72-75 for one entry; [clock e.1] is what [time.Now()] returns
    there. *)
Definition gcAlert (clock : Fingerprint → Time) (a : Alerts)
    (e : Fingerprint * Alert) : Alerts :=
  if Before (EndsAt e.2) (clock e.1) then
    {| alerts := delete e.1 (alerts a); marker := marker a ++ [e.1];
       intervalGC := intervalGC a; stopGC := stopGC a;
       listeners := listeners a; next := next a |}
  else a.

(** Lines 68-76.  [clock fp] is the reading of [time.Now()] when the entry of
    [fp] is visited. *)
Definition gcAlerts (clock : Fingerprint → Time) (a : Alerts) : Alerts :=
  foldl (gcAlert clock) a (map_to_list (alerts a)).

Definition set_listeners (a : Alerts) (ls : gmap Z listeningAlerts) : Alerts :=
  {| alerts := alerts a; marker := marker a; intervalGC := intervalGC a;
     stopGC := stopGC a; listeners := ls; next := next a |}.

(** Lines 79-85 for one listener. *)
Definition gcListener (a : Alerts) (h : Heap) (e : Z * listeningAlerts)
  : step (Alerts * Heap) :=
  let d := signal_at h (l_done e.2) in
  if recv_ready d then
    match chan_recv d with
    | Proceed (_, d') =>
        let a' := set_listeners a (delete e.1 (listeners a)) in
        match close_queue (set_signal h (l_done e.2) d') (l_alerts e.2) with
        | Proceed h' => Proceed (a', h')
        | Park => Park
        | Panic => Panic
        end
    | Park => Park
    | Panic => Panic
    end
  else Proceed (a, h).

(** Lines 78-86. *)
Fixpoint gcListeners_loop (a : Alerts) (h : Heap)
    (ls : list (Z * listeningAlerts)) : outcome (Alerts * Heap) :=
  match ls with
  | [] => Done (a, h)
  | e :: ls' =>
      match gcListener a h e with
      | Proceed (a', h') => gcListeners_loop a' h' ls'
      | Park => Waits (a, h)
      | Panic => Panics (a, h)
      end
  end.

Definition gcListeners (a : Alerts) (h : Heap) : outcome (Alerts * Heap) :=
  gcListeners_loop a h (map_to_list (listeners a)).

(** Lines 66-88: one sweep. *)
Definition sweep (clock : Fingerprint → Time) (a : Alerts) (h : Heap)
  : outcome (Alerts * Heap) :=
  gcListeners (gcAlerts clock a) h.

(** The cases of the [select] of lines 60-64. *)
Inductive gc_case : Type := GcStop | GcTimer.

(** One turn of the loop of [runGC] as the scheduler resolves it: whether
    the timer of [time.After] has fired when the [select] is resolved, the
    case the runtime takes when both are ready, and the clock during the
    sweep. *)
Record gc_turn : Type := mkTurn {
  timer_fired : bool;
  gc_pick : gc_case;
  gc_clock : Fingerprint → Time;
}.

Definition runGC_select (a : Alerts) (t : gc_turn) : step gc_case :=
  match recv_ready (stopGC a), timer_fired t with
  | true, true => Proceed (gc_pick t)
  | true, false => Proceed GcStop
  | false, true => Proceed GcTimer
  | false, false => Park
  end.

(** Where the goroutine of [runGC] is after some turns. *)
Inductive gc_status : Type :=
| GcReturned     (* the loop has been left by [return] *)
| GcLooping      (* at the head of the loop *)
| GcParked       (* waiting in the [select] *)
| GcPanicked.

Fixpoint runGC (turns : list gc_turn) (a : Alerts) (h : Heap)
  : gc_status * (Alerts * Heap) :=
  match turns with
  | [] => (GcLooping, (a, h))
  | t :: rest =>
      match runGC_select a t with
      | Proceed GcStop => (GcReturned, (a, h))
      | Proceed GcTimer =>
          match sweep (gc_clock t) a h with
          | Done (a', h') => runGC rest a' h'
          | Waits s => (GcParked, s)
          | Panics s => (GcPanicked, s)
          end
      | Park => (GcParked, (a, h))
      | Panic => (GcPanicked, (a, h))
      end
  end.

(** *** States the operations produce *)

(** The queue of a registered listener exists and is open, and no two
    registered listeners share a queue. *)
Definition listener_ok (h : Heap) (e : Z * listeningAlerts) : bool :=
  match queues h !! l_alerts e.2 with
  | Some q => negb (chan_closed q)
  | None => false
  end.

Definition wf (a : Alerts) (h : Heap) : bool :=
  forallb (listener_ok h) (map_to_list (listeners a))
  && bool_decide (NoDup (l_alerts <$> (map_to_list (listeners a)).*2)).

(** *** Calls and goroutines in sequence *)

(** The alerts a call of [Put] broadcasts, in order: each alert of the call
    as lines 187-193 resolve it against the store of its turn. *)
Fixpoint resolved_all (m : gmap Fingerprint Alert) (batch : list Alert)
  : list Alert :=
  match batch with
  | [] => []
  | alert :: rest => resolve m alert :: resolved_all (store m alert) rest
  end.

(** The ids of the registered listeners are below [a.next]. *)
Definition ids_below (a : Alerts) : bool :=
  forallb (λ e, e.1 <? next a) (map_to_list (listeners a)).

(** The goroutine of [GetPending] over several steps, with the runtime's
    choice at each; [None] once it has left. *)
Fixpoint producer_run (picks : list sel) (h : Heap) (p : option producer)
  : step (Heap * option producer) :=
  match picks, p with
  | [], _ => Proceed (h, p)
  | _ :: _, None => Proceed (h, None)
  | pick :: rest, Some p0 =>
      match producer_step pick h p0 with
      | Proceed (h', p') => producer_run rest h' p'
      | Park => Park
      | Panic => Panic
      end
  end.

End Provider.

(** The same collaborator with another [Merge]. *)
Definition with_Merge {Alert : Type} (ops : AlertOps Alert)
    (merge : Alert → Alert → Alert) : AlertOps Alert :=
  {| Alert_Fingerprint := @Alert_Fingerprint Alert ops;
     StartsAt := @StartsAt Alert ops;
     EndsAt := @EndsAt Alert ops;
     Merge := merge |}.

(** ** Sample data *)

(** An alert type to run the provider on: a fingerprint, the two instants
    and a payload.  Its [Merge] keeps the later alert's payload with the
    earliest start and the latest end. *)
Record SampleAlert : Type := mkSample {
  s_fp : Fingerprint;
  s_starts : Time;
  s_ends : Time;
  s_payload : nat;
}.

Definition sample_merge (old new : SampleAlert) : SampleAlert :=
  {| s_fp := s_fp new;
     s_starts := Z.min (s_starts old) (s_starts new);
     s_ends := Z.max (s_ends old) (s_ends new);
     s_payload := s_payload new |}.

#[global] Instance SampleAlert_ops : AlertOps SampleAlert :=
  {| Alert_Fingerprint := s_fp;
     StartsAt := s_starts;
     EndsAt := s_ends;
     Merge := sample_merge |}.

Definition no_heap : @Heap SampleAlert := {| queues := ∅; signals := ∅ |}.

(** A fresh provider, and the same after [Put] of one alert active on
    [0, 100). *)
Definition fresh_provider : @Alerts SampleAlert := (NewAlerts [] 10).1.

Definition alert_A : SampleAlert := mkSample 7%N 0 100 1.

Definition provider_A : @Alerts SampleAlert :=
  (put_state (Put (λ _ _, SelSend) fresh_provider no_heap [alert_A])).1.

(** Alerts of the same fingerprint: one that starts inside [alert_A], one
    that contains it, and one of another fingerprint. *)
Definition alert_inside : SampleAlert := mkSample 7%N 10 30 2.
Definition alert_around : SampleAlert := mkSample 7%N (-5) 100 3.
Definition alert_B : SampleAlert := mkSample 8%N 0 50 4.

(** An alert of the fingerprint of [alert_A] active after it, on
    [200, 300). *)
Definition alert_later : SampleAlert := mkSample 7%N 200 300 5.

(** A subscriber of [provider_A], and the state after it has cancelled. *)
Definition subscribed
  : @Alerts SampleAlert * @Heap SampleAlert * AlertIterator :=
  match Subscribe provider_A no_heap with
  | Proceed s => s
  | _ => (provider_A, no_heap, NewAlertIterator 0%N 0%N None)
  end.

Definition cancelled : @Alerts SampleAlert * @Heap SampleAlert :=
  (subscribed.1.1,
   match cancel subscribed.1.2 (it_done subscribed.2) with
   | Proceed h => h
   | _ => subscribed.1.2
   end).

Definition subscriber : listeningAlerts :=
  mkListening (it_ch subscribed.2) (it_done subscribed.2).

(** The state in which the queue of that subscriber is full: 199 more
    alerts have been put. *)
Definition full_state : @Alerts SampleAlert * @Heap SampleAlert :=
  put_state (Put (λ _ _, SelSend) subscribed.1.1 subscribed.1.2
               (replicate 199 alert_B)).

(** A provider that holds 200 alerts. *)
Definition many_alerts : list SampleAlert :=
  (λ k, mkSample (N.of_nat k) 0 100 k) <$> seq 0 200.

Definition provider_many : @Alerts SampleAlert :=
  (put_state (Put (λ _ _, SelSend) fresh_provider no_heap many_alerts)).1.

(** A second subscriber, after the first. *)
Definition subscribed_again
  : @Alerts SampleAlert * @Heap SampleAlert * AlertIterator :=
  match Subscribe subscribed.1.1 subscribed.1.2 with
  | Proceed s => s
  | _ => subscribed
  end.

(** A subscriber of the provider that holds 200 alerts. *)
Definition subscribed_many
  : @Alerts SampleAlert * @Heap SampleAlert * AlertIterator :=
  match Subscribe provider_many no_heap with
  | Proceed s => s
  | _ => (provider_many, no_heap, NewAlertIterator 0%N 0%N None)
  end.

(** The iterator and the goroutine of [GetPending] on [provider_A], and the
    heap once the consumer has cancelled. *)
Definition pending
  : @Heap SampleAlert * AlertIterator * @producer SampleAlert :=
  GetPending provider_A no_heap.

Definition pending_cancelled : @Heap SampleAlert :=
  match cancel pending.1.1 (it_done pending.1.2) with
  | Proceed h => h
  | _ => pending.1.1
  end.

(** ** Properties *)

Section Properties.

Context {Alert : Type} `{AlertOps Alert}.

Implicit Types (a : @Alerts Alert) (h : @Heap Alert) (alert old : Alert).
Implicit Types (m : gmap Fingerprint Alert) (fp : Fingerprint).

(** *** Get *)

(** C4.  [Get] returns [provider.ErrNotFound] exactly when the store has no
    alert under the fingerprint; otherwise it returns the stored alert and a
    nil error. *)
Theorem Get_not_found_iff a fp :
  (Get a fp = (None, Some ErrNotFound) ↔ alerts a !! fp = None)
  ∧ (∀ alert, alerts a !! fp = Some alert ↔ Get a fp = (Some alert, None)).
Proof.
  unfold Get. split.
  - destruct (alerts a !! fp); split; congruence.
  - intros alert. destruct (alerts a !! fp); split; congruence.
Qed.

(** *** The merge policy of Put *)

(** The test of [Put] is the one the policy words: an end or a start of the
    incoming alert strictly inside the open interval of the stored one. *)
Lemma overlaps_spec old alert :
  overlaps old alert = true
  ↔ (StartsAt old < EndsAt alert < EndsAt old)
    ∨ (StartsAt old < StartsAt alert < EndsAt old).
Proof.
  unfold overlaps, After, Before.
  rewrite orb_true_iff, !andb_true_iff, !Z.ltb_lt. tauto.
Qed.

Lemma overlaps_false old alert :
  overlaps old alert = false
  ↔ ¬ ((StartsAt old < EndsAt alert < EndsAt old)
       ∨ (StartsAt old < StartsAt alert < EndsAt old)).
Proof.
  rewrite <- overlaps_spec. destruct (overlaps old alert); split; congruence.
Qed.

(** Whatever becomes of the broadcast, a call with one alert leaves the
    store as line 195 wrote it. *)
Lemma Put_one_store pick a h alert :
  alerts (put_state (Put pick a h [alert])).1 = store (alerts a) alert.
Proof.
  simpl. destruct (broadcast _ _ _ _); reflexivity.
Qed.

(** A call whose alert meets no stored alert it overlaps does not depend on
    what [Merge] computes: it does not call it. *)
Lemma Put_one_Merge_unused merge' pick a h alert :
  (∀ old, alerts a !! Alert_Fingerprint alert = Some old →
          overlaps old alert = false) →
  Put (H := with_Merge H merge') pick a h [alert] = Put pick a h [alert].
Proof.
  intros Hno. simpl.
  assert (Hr : resolve (H := with_Merge H merge') (alerts a) alert
               = resolve (alerts a) alert).
  { unfold resolve. simpl.
    destruct (alerts a !! Alert_Fingerprint alert) as [old|] eqn:E; [|done].
    specialize (Hno old eq_refl).
    replace (overlaps (H := with_Merge H merge') old alert)
      with (overlaps old alert) by reflexivity.
    by rewrite Hno. }
  unfold store. simpl. rewrite Hr. reflexivity.
Qed.

(** C1.  When the store holds [old] under the fingerprint of the incoming
    alert, [Put] stores [Merge old alert] if the end or the start of the
    incoming alert lies strictly inside (old.StartsAt, old.EndsAt); if
    neither does, it stores the incoming alert itself, and the call is the
    same whatever [Merge] computes. *)
Theorem Put_merge_policy pick a h alert old :
  alerts a !! Alert_Fingerprint alert = Some old →
  let inside :=
    (StartsAt old < EndsAt alert < EndsAt old)
    ∨ (StartsAt old < StartsAt alert < EndsAt old) in
  let stored :=
    alerts (put_state (Put pick a h [alert])).1 !! Alert_Fingerprint alert in
  (inside → stored = Some (Merge old alert))
  ∧ (¬ inside →
     stored = Some alert
     ∧ ∀ merge', Put (H := with_Merge H merge') pick a h [alert]
                 = Put pick a h [alert]).
Proof.
  intros Hold inside stored. subst stored.
  rewrite Put_one_store. unfold store. rewrite lookup_insert_eq.
  unfold resolve. rewrite Hold. split.
  - intros Hin. apply overlaps_spec in Hin. by rewrite Hin.
  - intros Hout. apply overlaps_false in Hout. rewrite Hout. split; [done|].
    intros merge'. apply Put_one_Merge_unused.
    intros old' Hold'. congruence.
Qed.

(** C2.  An incoming alert that starts no later and ends no earlier than the
    stored alert of its fingerprint replaces it: the stored alert is the
    incoming one, and the call is the same whatever [Merge] computes. *)
Theorem Put_containing_replaces pick a h alert old :
  alerts a !! Alert_Fingerprint alert = Some old →
  StartsAt alert ≤ StartsAt old →
  EndsAt old ≤ EndsAt alert →
  alerts (put_state (Put pick a h [alert])).1 !! Alert_Fingerprint alert
    = Some alert
  ∧ ∀ merge', Put (H := with_Merge H merge') pick a h [alert]
              = Put pick a h [alert].
Proof.
  intros Hold Hs He.
  assert (Hout : overlaps old alert = false).
  { apply overlaps_false. lia. }
  split.
  - rewrite Put_one_store. unfold store. rewrite lookup_insert_eq.
    unfold resolve. by rewrite Hold, Hout.
  - intros merge'. apply Put_one_Merge_unused.
    intros old' Hold'. congruence.
Qed.

(** C3.  When the store has no alert under the fingerprint of [alert], the
    call [Put(alert)] leaves a store from which [Get] returns [alert] itself
    with a nil error, and the call is the same whatever [Merge] computes. *)
Theorem Put_fresh_then_Get pick a h alert :
  alerts a !! Alert_Fingerprint alert = None →
  Get (put_state (Put pick a h [alert])).1 (Alert_Fingerprint alert)
    = (Some alert, None)
  ∧ ∀ merge', Put (H := with_Merge H merge') pick a h [alert]
              = Put pick a h [alert].
Proof.
  intros Hnone. split.
  - unfold Get. rewrite Put_one_store. unfold store.
    rewrite lookup_insert_eq. unfold resolve. by rewrite Hnone.
  - intros merge'. apply Put_one_Merge_unused.
    intros old Hold. congruence.
Qed.

(** *** Calls with several alerts *)

(** A call that returns has written all its alerts, in order. *)
Lemma Put_returned_store pick a h batch a' h' err :
  Put pick a h batch = PutReturned a' h' err →
  alerts a' = store_all (alerts a) batch.
Proof.
  revert pick a h. induction batch as [|alert rest IH]; intros pick a h; simpl.
  - by intros [= <- <- <-].
  - destruct (broadcast _ _ _ _); [|done..].
    intros Hr. by rewrite (IH _ _ _ Hr).
Qed.

(** The alerts of a call are handled one after the other: once the first
    ones are through, the call goes on as a call with the others. *)
Lemma Put_app pick a h pre post a1 h1 err :
  Put pick a h pre = PutReturned a1 h1 err →
  Put pick a h (pre ++ post) = Put (λ k, pick (length pre + k)%nat) a1 h1 post.
Proof.
  revert pick a h. induction pre as [|alert rest IH]; intros pick a h; simpl.
  - by intros [= <- <- <-].
  - destruct (broadcast _ _ _ _); [|done..].
    intros Hr. by rewrite (IH _ _ _ Hr).
Qed.

(** The merge policy for an alert anywhere in a call: [old] is what the
    store holds under its fingerprint when its turn comes. *)
Lemma Put_batch_merge_policy pick a h pre alert a1 h1 err old :
  Put pick a h pre = PutReturned a1 h1 err →
  alerts a1 !! Alert_Fingerprint alert = Some old →
  alerts (put_state (Put pick a h (pre ++ [alert]))).1
    !! Alert_Fingerprint alert
  = Some (if overlaps old alert then Merge old alert else alert).
Proof.
  intros Hpre Hold. rewrite (Put_app _ _ _ _ _ _ _ _ Hpre).
  rewrite Put_one_store. unfold store. rewrite lookup_insert_eq.
  unfold resolve. by rewrite Hold.
Qed.

(** *** Put has no error path *)

(** The [select] of line 198 waits only when the queue is full and [done]
    is not ready, and panics only on a closed queue. *)
Lemma select_send_Park p h (l : listeningAlerts) alert :
  select_send p h l alert = Park →
  send_ready (queue_at h (l_alerts l)) = false
  ∧ recv_ready (signal_at h (l_done l)) = false.
Proof.
  unfold select_send, select_case, send_ready, chan_send, recv_ready, chan_recv.
  destruct (chan_closed (queue_at h (l_alerts l)));
    destruct (chan_has_room (queue_at h (l_alerts l)));
    destruct (chan_buf (signal_at h (l_done l)));
    destruct (chan_closed (signal_at h (l_done l)));
    destruct p; simpl; intros; try discriminate; done.
Qed.

Lemma select_send_Panic p h (l : listeningAlerts) alert :
  select_send p h l alert = Panic →
  chan_closed (queue_at h (l_alerts l)) = true.
Proof.
  unfold select_send, select_case, send_ready, chan_send, recv_ready, chan_recv.
  destruct (chan_closed (queue_at h (l_alerts l)));
    destruct (chan_has_room (queue_at h (l_alerts l)));
    destruct (chan_buf (signal_at h (l_done l)));
    destruct (chan_closed (signal_at h (l_done l)));
    destruct p; simpl; intros; try discriminate; done.
Qed.

Lemma broadcast_Waits pick h ls alert h' :
  broadcast pick h ls alert = Waits h' →
  ∃ i l, (i, l) ∈ ls
         ∧ send_ready (queue_at h' (l_alerts l)) = false
         ∧ recv_ready (signal_at h' (l_done l)) = false.
Proof.
  revert h. induction ls as [|[i l] ls IH]; intros h; simpl; [done|].
  destruct (select_send (pick i) h l alert) as [h1| |] eqn:E.
  - intros Hb. destruct (IH _ Hb) as (j & l' & Hin & Hq).
    exists j, l'. split; [by right | done].
  - intros [= <-]. exists i, l. split; [by left|].
    by apply select_send_Park in E.
  - discriminate.
Qed.

Lemma broadcast_Panics pick h ls alert h' :
  broadcast pick h ls alert = Panics h' →
  ∃ i l, (i, l) ∈ ls ∧ chan_closed (queue_at h' (l_alerts l)) = true.
Proof.
  revert h. induction ls as [|[i l] ls IH]; intros h; simpl; [done|].
  destruct (select_send (pick i) h l alert) as [h1| |] eqn:E.
  - intros Hb. destruct (IH _ Hb) as (j & l' & Hin & Hq).
    exists j, l'. split; [by right | done].
  - discriminate.
  - intros [= <-]. exists i, l. split; [by left|].
    by apply select_send_Panic in E.
Qed.

(** [Put] does not touch the registry. *)
Lemma Put_listeners pick a h batch :
  listeners (put_state (Put pick a h batch)).1 = listeners a.
Proof.
  revert pick a h. induction batch as [|alert rest IH]; intros pick a h;
    simpl; [done|].
  destruct (broadcast _ _ _ _); simpl; [|done..].
  by rewrite IH.
Qed.

(** With no listener registered every call returns. *)
Lemma Put_no_listeners pick a h batch :
  listeners a = ∅ →
  Put pick a h batch
  = PutReturned (set_alerts a (store_all (alerts a) batch)) h None.
Proof.
  revert pick a. induction batch as [|alert rest IH]; intros pick a Hl; simpl.
  - destruct a; reflexivity.
  - rewrite Hl, map_to_list_empty. simpl. rewrite IH by done. reflexivity.
Qed.

(** How a call ends: returning a nil error, waiting at the [select] of
    line 198 on a listener whose queue is full and whose [done] is not ready,
    or panicking on a registered queue that is closed. *)
Lemma Put_outcomes pick a h batch :
  match Put pick a h batch with
  | PutReturned _ _ err => err = None
  | PutParked a' h' =>
      ∃ i l, listeners a' !! i = Some l
             ∧ send_ready (queue_at h' (l_alerts l)) = false
             ∧ recv_ready (signal_at h' (l_done l)) = false
  | PutPanicked a' h' =>
      ∃ i l, listeners a' !! i = Some l
             ∧ chan_closed (queue_at h' (l_alerts l)) = true
  end.
Proof.
  revert pick a h. induction batch as [|alert rest IH]; intros pick a h;
    simpl; [done|].
  destruct (broadcast _ _ _ _) as [h'|h'|h'] eqn:E.
  - apply IH.
  - apply broadcast_Waits in E as (i & l & Hin & Hq).
    apply elem_of_map_to_list in Hin. by exists i, l.
  - apply broadcast_Panics in E as (i & l & Hin & Hq).
    apply elem_of_map_to_list in Hin. by exists i, l.
Qed.

(** *** What a broadcast does to the heap *)

Lemma chan_send_Proceed {T : Type} (q q' : chan T) x :
  chan_send q x = Proceed q' →
  chan_closed q = false ∧ chan_has_room q = true
  ∧ q' = {| chan_buf := chan_buf q ++ [x]; chan_cap := chan_cap q;
            chan_closed := false |}.
Proof.
  unfold chan_send. destruct (chan_closed q); [done|].
  destruct (chan_has_room q); [|done]. by intros [= <-].
Qed.

Lemma chan_recv_Proceed {T : Type} (d d' : chan T) x :
  chan_recv d = Proceed (x, d') →
  recv_ready d = true ∧ chan_closed d' = chan_closed d.
Proof.
  unfold chan_recv, recv_ready. destruct (chan_buf d).
  - destruct (chan_closed d) eqn:E; [|done]. intros [= <- <-]. by rewrite E.
  - by intros [= <- <-].
Qed.

(** A [select] that goes on has either sent into the queue or received from
    [done]. *)
Lemma select_send_Proceed p h (l : listeningAlerts) alert h' :
  select_send p h l alert = Proceed h' →
  (∃ q', chan_send (queue_at h (l_alerts l)) alert = Proceed q'
         ∧ h' = set_queue h (l_alerts l) q'
         ∧ (recv_ready (signal_at h (l_done l)) = false ∨ p = SelSend))
  ∨ (∃ x d', chan_recv (signal_at h (l_done l)) = Proceed (x, d')
             ∧ h' = set_signal h (l_done l) d'
             ∧ (send_ready (queue_at h (l_alerts l)) = false ∨ p = SelDone)).
Proof.
  unfold select_send, select_case.
  destruct (send_ready _) eqn:Es; destruct (recv_ready _) eqn:Er;
    [destruct p| | |done].
  - destruct (chan_send _ _) as [q'| |] eqn:E; [|done..].
    intros [= <-]. left. exists q'. auto.
  - destruct (chan_recv _) as [[x d']| |] eqn:E; [|done..].
    intros [= <-]. right. exists x, d'. auto.
  - destruct (chan_send _ _) as [q'| |] eqn:E; [|done..].
    intros [= <-]. left. exists q'. auto.
  - destruct (chan_recv _) as [[x d']| |] eqn:E; [|done..].
    intros [= <-]. right. exists x, d'. auto.
Qed.

Lemma queue_at_open_room h c :
  chan_has_room (queue_at h c) = true → is_Some (queues h !! c).
Proof.
  unfold queue_at. destruct (queues h !! c); [by eexists|done].
Qed.

Lemma signal_at_ready h c :
  recv_ready (signal_at h c) = true → is_Some (signals h !! c).
Proof.
  unfold signal_at. destruct (signals h !! c); [by eexists|done].
Qed.

(** It opens and closes no channel, makes none, and leaves every queue but
    that of its listener as it was. *)
Lemma select_send_heap p h (l : listeningAlerts) alert h' :
  select_send p h l alert = Proceed h' →
  (∀ c, chan_closed <$> queues h' !! c = chan_closed <$> queues h !! c)
  ∧ (∀ c, chan_closed <$> signals h' !! c = chan_closed <$> signals h !! c)
  ∧ (∀ c, c ≠ l_alerts l → queues h' !! c = queues h !! c).
Proof.
  intros [(q' & Hs & -> & _)|(x & d' & Hr & -> & _)]%select_send_Proceed.
  - apply chan_send_Proceed in Hs as (Hopen & Hroom & ->).
    apply queue_at_open_room in Hroom as Hq. destruct Hq as [q Hq].
    unfold queue_at in Hopen. rewrite Hq in Hopen. simpl in *.
    split; [|split]; [|done|].
    + intros c. destruct (decide (c = l_alerts l)) as [->|Hne].
      * rewrite lookup_insert_eq, Hq. simpl. by rewrite Hopen.
      * by rewrite lookup_insert_ne.
    + intros c Hne. by rewrite lookup_insert_ne.
  - apply chan_recv_Proceed in Hr as (Hready & Hclosed).
    apply signal_at_ready in Hready as [d Hd].
    unfold signal_at in Hclosed. rewrite Hd in Hclosed. simpl in *.
    split; [done|]. split; [|done].
    intros c. destruct (decide (c = l_done l)) as [->|Hne].
    + rewrite lookup_insert_eq, Hd. simpl. by rewrite Hclosed.
    + by rewrite lookup_insert_ne.
Qed.

Lemma broadcast_heap pick h ls alert :
  let h' := outcome_state (broadcast pick h ls alert) in
  (∀ c, chan_closed <$> queues h' !! c = chan_closed <$> queues h !! c)
  ∧ (∀ c, chan_closed <$> signals h' !! c = chan_closed <$> signals h !! c)
  ∧ (∀ c, c ∉ l_alerts <$> ls.*2 → queues h' !! c = queues h !! c).
Proof.
  revert h. induction ls as [|[i l] ls IH]; intros h; simpl; [done|].
  destruct (select_send (pick i) h l alert) as [h1| |] eqn:E; simpl; [|done..].
  apply select_send_heap in E as (Hq & Hs & Ho).
  destruct (IH h1) as (IHq & IHs & IHo). split; [|split].
  - intros c. by rewrite IHq.
  - intros c. by rewrite IHs.
  - intros c Hc. rewrite IHo, Ho; [done|..].
    + intros ->. apply Hc. by left.
    + intros ?. apply Hc. by right.
Qed.

(** [Put] opens and closes no channel, and leaves every queue that belongs
    to no registered listener as it was. *)
Lemma Put_heap pick a h batch :
  let h' := (put_state (Put pick a h batch)).2 in
  (∀ c, chan_closed <$> queues h' !! c = chan_closed <$> queues h !! c)
  ∧ (∀ c, chan_closed <$> signals h' !! c = chan_closed <$> signals h !! c)
  ∧ (∀ c, (∀ i l, listeners a !! i = Some l → l_alerts l ≠ c) →
          queues h' !! c = queues h !! c).
Proof.
  revert pick a h. induction batch as [|alert rest IH]; intros pick a h;
    simpl; [done|].
  pose proof (broadcast_heap (pick O) h (map_to_list (listeners a))
                (resolve (alerts a) alert)) as (Hq & Hs & Ho).
  assert (Hreg : ∀ c, (∀ i l, listeners a !! i = Some l → l_alerts l ≠ c) →
                      c ∉ l_alerts <$> (map_to_list (listeners a)).*2).
  { intros c Hc (l & -> & ([i l'] & -> & Hin)%list_elem_of_fmap)%list_elem_of_fmap.
    apply elem_of_map_to_list in Hin. by eapply Hc. }
  destruct (broadcast _ _ _ _) as [h1|h1|h1]; simpl in *.
  - destruct (IH (λ k, pick (S k))
                (set_alerts a (store (alerts a) alert)) h1) as (IHq & IHs & IHo).
    split; [|split].
    + intros c. by rewrite IHq.
    + intros c. by rewrite IHs.
    + intros c Hc. rewrite IHo by done. auto.
  - auto.
  - auto.
Qed.

(** *** States the operations produce *)

Lemma wf_spec a h :
  wf a h = true
  ↔ (∀ i l, listeners a !! i = Some l →
            ∃ q, queues h !! l_alerts l = Some q ∧ chan_closed q = false)
    ∧ (∀ i j l l', listeners a !! i = Some l → listeners a !! j = Some l' →
                   l_alerts l = l_alerts l' → i = j).
Proof.
  unfold wf. rewrite andb_true_iff, bool_decide_eq_true, forallb_forall.
  rewrite <- list_fmap_compose. split.
  - intros [Hok Hnd]. split.
    + intros i l Hl. specialize (Hok (i, l)). unfold listener_ok in Hok.
      simpl in Hok. destruct (queues h !! l_alerts l) as [q|].
      * exists q. split; [done|]. apply negb_true_iff, Hok.
        by apply list_elem_of_In, elem_of_map_to_list.
      * discriminate Hok. by apply list_elem_of_In, elem_of_map_to_list.
    + intros i j l l' Hi Hj Heq.
      apply elem_of_map_to_list in Hi, Hj.
      apply list_elem_of_lookup in Hi as [n Hn], Hj as [n' Hn'].
      assert (n = n') as <-.
      { eapply NoDup_lookup; [apply Hnd|..];
          rewrite list_lookup_fmap; [by rewrite Hn|rewrite Hn'; simpl].
        by rewrite Heq. }
      congruence.
  - intros [Hok Hinj]. split.
    + intros [i l] Hin%list_elem_of_In%elem_of_map_to_list.
      destruct (Hok i l Hin) as (q & Hq & Hopen).
      unfold listener_ok. simpl. by rewrite Hq, Hopen.
    + apply NoDup_fmap_2_strong; [|apply NoDup_map_to_list].
      intros [i l] [j l'] Hi%elem_of_map_to_list Hj%elem_of_map_to_list Heq.
      simpl in Heq. assert (i = j) as <- by eauto. congruence.
Qed.

Lemma wf_NewAlerts mk interval h : wf (NewAlerts mk interval).1 h = true.
Proof. apply wf_spec. simpl. split; intros *; by rewrite lookup_empty. Qed.

(** [wf] looks only at the registry and at which queues are there and
    open. *)
Lemma wf_heap a h h' :
  (∀ c, chan_closed <$> queues h' !! c = chan_closed <$> queues h !! c) →
  wf a h = true → wf a h' = true.
Proof.
  rewrite !wf_spec. intros Hq [Hok Hinj]. split; [|done].
  intros i l Hl. destruct (Hok i l Hl) as (q & Hqq & Hopen).
  specialize (Hq (l_alerts l)). rewrite Hqq in Hq. simpl in Hq.
  destruct (queues h' !! l_alerts l) as [q'|]; [|done].
  exists q'. split; [done|]. simpl in Hq. congruence.
Qed.

(** [Put] keeps the registry and its queues in order. *)
Lemma wf_Put pick a h batch :
  wf a h = true →
  wf (put_state (Put pick a h batch)).1 (put_state (Put pick a h batch)).2
  = true.
Proof.
  intros Hwf.
  pose proof (Put_heap pick a h batch) as (Hq & _).
  apply (wf_heap _ h); [done|].
  unfold wf in *. by rewrite Put_listeners.
Qed.

(** From such a state [Put] does not panic: it returns a nil error or waits
    for a consumer. *)
Lemma Put_no_panic pick a h batch a' h' :
  wf a h = true → Put pick a h batch ≠ PutPanicked a' h'.
Proof.
  intros Hwf HP.
  pose proof (wf_Put pick a h batch Hwf) as Hwf'.
  pose proof (Put_outcomes pick a h batch) as Hr.
  rewrite HP in Hwf', Hr. simpl in *.
  destruct Hr as (i & l & Hl & Hclosed).
  apply wf_spec in Hwf' as [Hok _].
  destruct (Hok i l Hl) as (q & Hq & Hopen).
  unfold queue_at in Hclosed. rewrite Hq in Hclosed. simpl in *. congruence.
Qed.

(** *** When Put returns *)

Lemma closed_signal_heap h h' c :
  (∀ c, chan_closed <$> signals h' !! c = chan_closed <$> signals h !! c) →
  chan_closed (signal_at h' c) = chan_closed (signal_at h c).
Proof.
  intros Hs. specialize (Hs c). unfold signal_at.
  destruct (signals h' !! c), (signals h !! c); simpl in *; congruence.
Qed.

Lemma queue_at_set_queue h c q c' :
  queue_at (set_queue h c q) c' = if decide (c' = c) then q else queue_at h c'.
Proof.
  unfold queue_at, set_queue. simpl. case_decide as Hc.
  - subst. by rewrite lookup_insert_eq.
  - by rewrite lookup_insert_ne.
Qed.

(** A [select] that goes on lengthens the queue of its listener by at most
    the alert, and changes no capacity. *)
Lemma select_send_length p h (l : listeningAlerts) alert h1 c :
  select_send p h l alert = Proceed h1 →
  (length (chan_buf (queue_at h1 c)) ≤ S (length (chan_buf (queue_at h c))))%nat
  ∧ chan_cap (queue_at h1 c) = chan_cap (queue_at h c).
Proof.
  intros [(q' & Hs & -> & _)|(x & d' & Hr & -> & _)]%select_send_Proceed.
  - apply chan_send_Proceed in Hs as (_ & _ & ->).
    rewrite queue_at_set_queue. case_decide as Hc.
    + subst. simpl. rewrite length_app. simpl. split; [lia|done].
    + split; [lia|done].
  - unfold queue_at. simpl. split; [lia|done].
Qed.

(** A broadcast over listeners with distinct open queues, each cancelled or
    with room in its queue, runs to its end, and no queue grows by more than
    the one alert. *)
Lemma broadcast_room pick h (ls : list (Z * listeningAlerts)) alert :
  NoDup (l_alerts <$> ls.*2) →
  (∀ e, e ∈ ls → chan_closed (queue_at h (l_alerts e.2)) = false) →
  (∀ e, e ∈ ls → chan_closed (signal_at h (l_done e.2)) = true
                 ∨ chan_has_room (queue_at h (l_alerts e.2)) = true) →
  ∃ h',
    broadcast pick h ls alert = Done h'
    ∧ ∀ c, (length (chan_buf (queue_at h' c))
            ≤ S (length (chan_buf (queue_at h c))))%nat
           ∧ chan_cap (queue_at h' c) = chan_cap (queue_at h c).
Proof.
  revert h. induction ls as [|[i l] ls IH]; intros h Hnd Hopen Hroom; simpl.
  - exists h. split; [done|]. intros c. split; [lia|done].
  - simpl in Hnd. apply NoDup_cons in Hnd as [Hfresh Hnd].
    assert (Hp : ∃ h1, select_send (pick i) h l alert = Proceed h1).
    { destruct (select_send (pick i) h l alert) as [h1| |] eqn:E; [by eexists|..].
      - apply select_send_Park in E as [Es Er].
        destruct (Hroom (i, l) ltac:(by left)) as [Hc|Hr]; simpl in *.
        + unfold recv_ready in Er. rewrite Hc in Er. by destruct (chan_buf _).
        + unfold send_ready in Es. rewrite Hr in Es. by destruct (chan_closed _).
      - apply select_send_Panic in E.
        pose proof (Hopen (i, l) ltac:(by left)) as Ho. simpl in Ho. congruence. }
    destruct Hp as [h1 E]. rewrite E.
    pose proof (select_send_heap _ _ _ _ _ E) as (_ & Hs1 & Ho1).
    assert (Hrest : ∀ e, e ∈ ls → queue_at h1 (l_alerts e.2)
                                  = queue_at h (l_alerts e.2)).
    { intros e Hin. unfold queue_at. rewrite Ho1; [done|].
      intros Heq. apply Hfresh. rewrite <- Heq.
      apply list_elem_of_fmap. exists e.2. split; [done|].
      apply list_elem_of_fmap. by exists e. }
    destruct (IH h1 Hnd) as (h' & Hb & Hlen).
    { intros e Hin. rewrite Hrest by done. apply Hopen. by right. }
    { intros e Hin. rewrite Hrest by done.
      rewrite (closed_signal_heap h h1) by done. apply Hroom. by right. }
    exists h'. split; [done|]. intros c.
    pose proof (select_send_length _ _ _ _ _ c E) as [Hl1 Hc1].
    destruct (decide (c = l_alerts l)) as [->|Hne].
    + pose proof (broadcast_heap pick h1 ls alert) as (_ & _ & Ho).
      rewrite Hb in Ho. simpl in Ho.
      replace (queue_at h' (l_alerts l)) with (queue_at h1 (l_alerts l));
        [done|]. unfold queue_at. by rewrite Ho.
    + destruct (Hlen c) as [Hl Hc]. unfold queue_at in *.
      by rewrite <- (Ho1 c Hne).
Qed.

(** With the registry and its queues in order, [Put] returns whenever each
    listener has cancelled or has room in its queue for the alerts of the
    call. *)
Lemma Put_returns_with_room pick a h batch :
  wf a h = true →
  (∀ i l, listeners a !! i = Some l →
          chan_closed (signal_at h (l_done l)) = true
          ∨ Z.of_nat (length (chan_buf (queue_at h (l_alerts l))))
            + Z.of_nat (length batch) ≤ chan_cap (queue_at h (l_alerts l))) →
  ∃ h', Put pick a h batch
        = PutReturned (set_alerts a (store_all (alerts a) batch)) h' None.
Proof.
  revert pick a h. induction batch as [|alert rest IH];
    intros pick a h Hwf Hroom; simpl.
  - exists h. by destruct a.
  - assert (Hwf' := Hwf). apply wf_spec in Hwf' as [Hok Hinj].
    unfold wf in Hwf. apply andb_true_iff in Hwf as [_ Hnd].
    apply bool_decide_eq_true in Hnd.
    destruct (broadcast_room (pick O) h (map_to_list (listeners a))
                (resolve (alerts a) alert) Hnd) as (h1 & Hb & Hlen).
    { intros [i l] Hin%elem_of_map_to_list. simpl.
      destruct (Hok i l Hin) as (q & Hq & Hopen). unfold queue_at. by rewrite Hq. }
    { intros [i l] Hin%elem_of_map_to_list. simpl.
      destruct (Hroom i l Hin) as [Hc|Hr]; [by left|right].
      unfold chan_has_room. apply Z.ltb_lt. simpl in Hr. lia. }
    rewrite Hb.
    pose proof (broadcast_heap (pick O) h (map_to_list (listeners a))
                  (resolve (alerts a) alert)) as (Hq & Hs & _).
    rewrite Hb in Hq, Hs. simpl in Hq, Hs.
    destruct (IH (λ k, pick (S k)) (set_alerts a (store (alerts a) alert)) h1)
      as (h' & ->).
    + apply (wf_heap _ h); [done|]. by apply wf_spec.
    + intros i l Hl. simpl in Hl.
      rewrite (closed_signal_heap h h1) by done.
      destruct (Hroom i l Hl) as [Hc|Hr]; [by left|right].
      destruct (Hlen (l_alerts l)) as [Hl1 ->]. simpl in Hr. lia.
    + by exists h'.
Qed.

(** C8, as the code has it.  From a state the operations produce, for every
    sequence of alerts: [Put] has no failure path, it does not panic and
    every return carries a nil error; the call with no alert returns at
    once; and [Put] returns, with a nil error and all its alerts stored,
    whenever every registered listener has closed [done] or has room in
    its queue for the alerts of the call.  A call that does not return waits
    at the [select] of line 198 on a listener whose queue is full and whose
    [done] is not ready. *)
Theorem Put_returns_nil_or_waits pick a h batch :
  wf a h = true →
  Put pick a h [] = PutReturned a h None
  ∧ ((∀ i l, listeners a !! i = Some l →
             chan_closed (signal_at h (l_done l)) = true
             ∨ Z.of_nat (length (chan_buf (queue_at h (l_alerts l))))
               + Z.of_nat (length batch) ≤ chan_cap (queue_at h (l_alerts l))) →
     ∃ h', Put pick a h batch
           = PutReturned (set_alerts a (store_all (alerts a) batch)) h' None)
  ∧ match Put pick a h batch with
    | PutReturned _ _ err => err = None
    | PutParked a' h' =>
        ∃ i l, listeners a !! i = Some l
               ∧ send_ready (queue_at h' (l_alerts l)) = false
               ∧ recv_ready (signal_at h' (l_done l)) = false
    | PutPanicked _ _ => False
    end.
Proof.
  intros Hwf. split; [reflexivity|]. split.
  - by apply Put_returns_with_room.
  - pose proof (Put_outcomes pick a h batch) as Hout.
    pose proof (Put_listeners pick a h batch) as Hls.
    pose proof (Put_no_panic pick a h batch) as Hnp.
    destruct (Put pick a h batch) as [a' h' err|a' h'|a' h']; simpl in *.
    + done.
    + by rewrite <- Hls.
    + by eapply Hnp.
Qed.

(** *** Snapshots and subscriptions *)

(** [max] is the greater of its arguments. *)
Lemma max_spec x y : max x y = Z.max x y.
Proof. unfold max. destruct (Z.gtb_spec x y); lia. Qed.

Lemma max_ge_l x y : x ≤ max x y.
Proof. rewrite max_spec. lia. Qed.

(** Sending a snapshot that fits into an open channel goes on at every
    element. *)
Lemma preload_fits (q : chan Alert) snapshot :
  chan_closed q = false →
  Z.of_nat (length (chan_buf q)) + Z.of_nat (length snapshot) ≤ chan_cap q →
  preload q snapshot
  = Proceed {| chan_buf := chan_buf q ++ snapshot;
               chan_cap := chan_cap q;
               chan_closed := false |}.
Proof.
  revert q. induction snapshot as [|x rest IH]; intros q Hopen Hfit; simpl.
  - rewrite app_nil_r. destruct q; simpl in *. by subst.
  - simpl in Hfit. unfold chan_send, chan_has_room. rewrite Hopen.
    destruct (Z.ltb_spec (Z.of_nat (length (chan_buf q))) (chan_cap q));
      [|lia].
    rewrite IH; simpl; [|done|rewrite length_app; simpl; lia].
    by rewrite <- app_assoc.
Qed.

(** [Subscribe] goes through: it registers under [a.next] a listener whose
    queue holds the snapshot. *)
Lemma Subscribe_proceeds a h :
  let snapshot := (getPending a).1 in
  let capacity := max (Z.of_nat (length snapshot)) alertChannelLength in
  ∃ a' h' it,
    Subscribe a h = Proceed (a', h', it)
    ∧ queues h' !! it_ch it
      = Some {| chan_buf := snapshot; chan_cap := capacity;
                chan_closed := false |}
    ∧ listeners a' !! next a = Some (mkListening (it_ch it) (it_done it)).
Proof.
  intros snapshot capacity. cbn [getPending fst] in snapshot.
  assert (Hcap : Z.of_nat (length snapshot) ≤ capacity) by apply max_ge_l.
  unfold Subscribe. cbn [getPending].
  change ((map_to_list (alerts a)).*2) with snapshot. fold capacity.
  rewrite preload_fits; [|done|simpl; lia]. simpl.
  eexists _, _, _. split; [reflexivity|]. simpl. split.
  - by rewrite lookup_insert_eq.
  - by rewrite lookup_insert_eq.
Qed.

(** C7.  [Subscribe] makes the queue with capacity
    [max(len(alerts), alertChannelLength)], the greater of the size of the
    snapshot and 200, and with that capacity every send of the preload loop
    finds room: the call goes on to register the listener, the queue then
    holding the snapshot. *)
Theorem Subscribe_queue_capacity a h :
  let snapshot := (getPending a).1 in
  let capacity := max (Z.of_nat (length snapshot)) alertChannelLength in
  capacity = Z.max (Z.of_nat (length snapshot)) 200
  ∧ (∀ k, (k < length snapshot)%nat →
          ∃ q, preload (make_chan capacity) (take k snapshot) = Proceed q
               ∧ chan_has_room q = true)
  ∧ ∃ a' h' it,
      Subscribe a h = Proceed (a', h', it)
      ∧ queues h' !! it_ch it
        = Some {| chan_buf := snapshot; chan_cap := capacity;
                  chan_closed := false |}
      ∧ listeners a' !! next a = Some (mkListening (it_ch it) (it_done it)).
Proof.
  intros snapshot capacity. cbn [getPending fst] in snapshot.
  assert (Hcap : Z.of_nat (length snapshot) ≤ capacity) by apply max_ge_l.
  split; [apply max_spec|]. split.
  - intros k Hk. eexists. split.
    + apply preload_fits; [done|]. simpl. rewrite length_take. lia.
    + unfold chan_has_room. simpl. rewrite length_take. apply Z.ltb_lt. lia.
  - apply Subscribe_proceeds.
Qed.

Lemma fresh_loc_None {V : Type} (m : gmap loc V) : m !! fresh_loc m = None.
Proof. apply not_elem_of_dom, is_fresh. Qed.

(** [Subscribe] keeps the registry and its queues in order: the queue it
    makes is a new one. *)
Lemma wf_Subscribe a h :
  wf a h = true →
  ∃ a' h' it,
    Subscribe a h = Proceed (a', h', it)
    ∧ wf a' h' = true
    ∧ (∀ c q, queues h !! c = Some q → queues h' !! c = Some q)
    ∧ (∀ c d, signals h !! c = Some d → signals h' !! c = Some d).
Proof.
  intros [Hok Hinj]%wf_spec.
  destruct (Subscribe_proceeds a h) as (a' & h' & it & HS & Hq & Hl).
  exists a', h', it. split; [done|].
  unfold Subscribe in HS. cbn [getPending] in HS.
  destruct (preload _ _) as [q0| |]; [|done..].
  injection HS as <- <- <-. simpl in *.
  assert (Hnew : ∀ i l, listeners a !! i = Some l →
                        l_alerts l ≠ fresh_loc (queues h)).
  { intros i l Hi Heq. destruct (Hok i l Hi) as (q & Hqq & _).
    by rewrite Heq, fresh_loc_None in Hqq. }
  split; [|split].
  - apply wf_spec. simpl. split.
    + intros i l [[<- <-]|[Hne Hi]]%lookup_insert_Some; simpl.
      * rewrite lookup_insert_eq in Hq |- *. eexists. split; [done|].
        by injection Hq as ->.
      * rewrite lookup_insert_ne by (symmetry; eauto). eauto.
    + intros i j l l' [[<- <-]|[Hni Hi]]%lookup_insert_Some
                      [[<- <-]|[Hnj Hj]]%lookup_insert_Some Heq; simpl in *.
      * done.
      * symmetry in Heq. by apply Hnew in Hj.
      * by apply Hnew in Hi.
      * eauto.
  - intros c q Hc. rewrite lookup_insert_ne; [done|].
    intros <-. by rewrite fresh_loc_None in Hc.
  - intros c d Hc. rewrite lookup_insert_ne; [done|].
    intros <-. by rewrite fresh_loc_None in Hc.
Qed.

(** So do the consumer's cancelling and receiving. *)
Lemma wf_cancel a h done h' :
  cancel h done = Proceed h' → wf a h = true → wf a h' = true.
Proof.
  unfold cancel. destruct (signals h !! done) as [d|]; [|done].
  destruct (chan_close d); [|done..]. intros [= <-]. by apply wf_heap.
Qed.

Lemma wf_receive a h ch x h' :
  receive h ch = Proceed (x, h') → wf a h = true → wf a h' = true.
Proof.
  unfold receive. destruct (chan_recv _) as [[y q']| |] eqn:E; [|done..].
  intros [= <- <-]. apply wf_heap. intros c. simpl.
  apply chan_recv_Proceed in E as [Hr Hc].
  destruct (decide (c = ch)) as [->|Hne]; [|by rewrite lookup_insert_ne].
  rewrite lookup_insert_eq. unfold queue_at in *.
  destruct (queues h !! ch); simpl in *; [by rewrite Hc|done].
Qed.

(** C10.  [getPending] returns a nil error in every state, and the iterators
    of [Subscribe] and [GetPending] are made with a nil error: both calls
    produce their iterator. *)
Theorem iterators_start_without_error a h :
  (getPending a).2 = None
  ∧ (∃ a' h' it, Subscribe a h = Proceed (a', h', it) ∧ it_err it = None)
  ∧ it_err (GetPending a h).1.2 = None.
Proof.
  split; [reflexivity|]. split; [|reflexivity].
  unfold Subscribe. simpl.
  pose proof (max_ge_l (Z.of_nat (length (map_to_list (alerts a)).*2))
                alertChannelLength).
  rewrite preload_fits; [|done|simpl; lia].
  by eexists _, _, _.
Qed.

(** *** The garbage collector *)

(** The loop over the listeners changes neither the store, nor the marker,
    nor [stopGC], however it ends. *)
Lemma gcListener_frame a h e a' h' :
  gcListener a h e = Proceed (a', h') →
  alerts a' = alerts a ∧ marker a' = marker a ∧ stopGC a' = stopGC a.
Proof.
  unfold gcListener, close_queue.
  destruct (recv_ready _); [|by intros [= <- <-]].
  destruct (chan_recv _) as [[x d']| |]; [|done..].
  destruct (queues _ !! _) as [q|]; [|done].
  destruct (chan_close q); [|done..].
  by intros [= <- <-].
Qed.

Lemma gcListeners_loop_frame a h ls :
  let a' := (outcome_state (gcListeners_loop a h ls)).1 in
  alerts a' = alerts a ∧ marker a' = marker a ∧ stopGC a' = stopGC a.
Proof.
  revert a h. induction ls as [|e ls IH]; intros a h; simpl; [done|].
  destruct (gcListener a h e) as [[a1 h1]| |] eqn:E; simpl; [|done..].
  apply gcListener_frame in E as (E1 & E2 & E3).
  destruct (IH a1 h1) as (I1 & I2 & I3). simpl in *.
  by rewrite I1, I2, I3.
Qed.

(** The loop over the store, entry by entry. *)
Lemma gcAlerts_foldl clock a (l : list (Fingerprint * Alert)) :
  let a' := foldl (gcAlert clock) a l in
  alerts a'
  = foldl (λ m e, if Before (EndsAt e.2) (clock e.1) then delete e.1 m else m)
          (alerts a) l
  ∧ marker a'
    = marker a
      ++ (filter (λ e, Before (EndsAt e.2) (clock e.1) = true) l).*1
  ∧ stopGC a' = stopGC a ∧ listeners a' = listeners a ∧ next a' = next a.
Proof.
  revert a. induction l as [|e l IH]; intros a; simpl.
  - by rewrite app_nil_r.
  - destruct (IH (gcAlert clock a e)) as (-> & -> & -> & -> & ->).
    unfold gcAlert.
    destruct (Before (EndsAt e.2) (clock e.1)) eqn:E; simpl.
    + rewrite filter_cons_True by done. simpl. by rewrite <- app_assoc.
    + rewrite filter_cons_False by congruence. done.
Qed.

Lemma foldl_delete_lookup (P : Fingerprint * Alert → bool)
    (l : list (Fingerprint * Alert)) m fp :
  foldl (λ m e, if P e then delete e.1 m else m) m l !! fp
  = if decide (fp ∈ (filter (λ e, P e = true) l).*1) then None else m !! fp.
Proof.
  revert m. induction l as [|e l IH]; intros m; [done|].
  cbn [foldl]. rewrite IH. clear IH.
  destruct (P e) eqn:E.
  - rewrite filter_cons_True by done. rewrite fmap_cons.
    destruct (decide (fp ∈ (filter _ l).*1)) as [Hin|Hnin].
    + rewrite decide_True; [done | by right].
    + destruct (decide (fp = e.1)) as [->|Hne].
      * rewrite lookup_delete_eq, decide_True; [done | by left].
      * rewrite lookup_delete_ne by done.
        rewrite decide_False; [done|]. intros [?|?]%elem_of_cons; done.
  - rewrite filter_cons_False by congruence. done.
Qed.

Lemma elem_of_expired clock m fp :
  fp ∈ (filter (λ e : Fingerprint * Alert,
                  Before (EndsAt e.2) (clock e.1) = true) (map_to_list m)).*1
  ↔ ∃ alert, m !! fp = Some alert ∧ EndsAt alert < clock fp.
Proof.
  rewrite list_elem_of_fmap. split.
  - intros ([fp' alert] & -> & Hin). apply list_elem_of_filter in Hin as [Hexp Hin].
    apply elem_of_map_to_list in Hin. simpl in *.
    exists alert. split; [done|]. by apply Z.ltb_lt.
  - intros (alert & Hm & Hlt). exists (fp, alert). split; [done|].
    apply list_elem_of_filter. split.
    + simpl. by apply Z.ltb_lt.
    + by apply elem_of_map_to_list.
Qed.

Lemma NoDup_expired clock m :
  NoDup (filter (λ e : Fingerprint * Alert,
                   Before (EndsAt e.2) (clock e.1) = true) (map_to_list m)).*1.
Proof.
  eapply sublist_NoDup; [apply (NoDup_fst_map_to_list m)|].
  apply fmap_sublist, sublist_filter.
Qed.

(** C5.  A sweep removes from the store exactly the alerts whose [EndsAt] is
    strictly before the reading [time.Now()] gives when their entry is
    visited, leaves every other entry as it was, and calls [Marker.Delete]
    once for each fingerprint it removes and for no other. *)
Theorem sweep_removes_expired clock a h :
  let a' := (outcome_state (sweep clock a h)).1 in
  (∀ fp alert,
     alerts a !! fp = Some alert →
     alerts a' !! fp
     = if Before (EndsAt alert) (clock fp) then None else Some alert)
  ∧ (∀ fp, alerts a !! fp = None → alerts a' !! fp = None)
  ∧ ∃ deleted,
      marker a' = marker a ++ deleted
      ∧ NoDup deleted
      ∧ ∀ fp, fp ∈ deleted
              ↔ ∃ alert, alerts a !! fp = Some alert ∧ EndsAt alert < clock fp.
Proof.
  intros a'. subst a'. unfold sweep, gcListeners.
  destruct (gcListeners_loop_frame (gcAlerts clock a) h
              (map_to_list (listeners (gcAlerts clock a)))) as (-> & -> & _).
  unfold gcAlerts.
  destruct (gcAlerts_foldl clock a (map_to_list (alerts a)))
    as (-> & -> & _).
  assert (Hlook : ∀ fp,
    foldl (λ m e, if Before (EndsAt e.2) (clock e.1) then delete e.1 m else m)
          (alerts a) (map_to_list (alerts a)) !! fp
    = if Before (default 0 (EndsAt <$> alerts a !! fp)) (clock fp)
      then None else alerts a !! fp).
  { intros fp.
    rewrite (foldl_delete_lookup (λ e, Before (EndsAt e.2) (clock e.1))).
    destruct (decide _) as [Hin|Hnin].
    - apply elem_of_expired in Hin as (alert & Hm & Hlt).
      rewrite Hm. simpl. unfold Before.
      by destruct (Z.ltb_spec (EndsAt alert) (clock fp)); [|lia].
    - destruct (alerts a !! fp) as [alert|] eqn:Hm; simpl.
      + unfold Before. destruct (Z.ltb_spec (EndsAt alert) (clock fp)); [|done].
        destruct Hnin. apply elem_of_expired. by exists alert.
      + by destruct (Before _ _). }
  split; [|split].
  - intros fp alert Hm. rewrite Hlook, Hm. reflexivity.
  - intros fp Hm. rewrite Hlook, Hm. simpl. by destruct (Before _ _).
  - eexists. split; [reflexivity|]. split.
    + apply NoDup_expired.
    + intros fp. apply elem_of_expired.
Qed.

(** The order in which the loop of lines 68-76 visits the entries does not
    matter to the store it leaves, nor to the calls of [Marker.Delete] but
    for their order. *)
Lemma gcAlerts_any_order clock a (l : list (Fingerprint * Alert)) :
  l ≡ₚ map_to_list (alerts a) →
  alerts (foldl (gcAlert clock) a l) = alerts (gcAlerts clock a)
  ∧ marker (foldl (gcAlert clock) a l) ≡ₚ marker (gcAlerts clock a).
Proof.
  intros Hperm. unfold gcAlerts.
  destruct (gcAlerts_foldl clock a l) as (-> & -> & _).
  destruct (gcAlerts_foldl clock a (map_to_list (alerts a))) as (-> & -> & _).
  split.
  - apply map_eq. intros fp.
    rewrite !(foldl_delete_lookup (λ e, Before (EndsAt e.2) (clock e.1))).
    destruct (decide _) as [Hin|Hnin]; destruct (decide _) as [Hin'|Hnin'];
      try done.
    + destruct Hnin'. by rewrite <- Hperm.
    + destruct Hnin. by rewrite Hperm.
  - by rewrite Hperm.
Qed.

(** *** The sweep of the registry *)

Lemma chan_recv_ready {T : Type} (d : chan T) :
  recv_ready d = true →
  ∃ x d', chan_recv d = Proceed (x, d') ∧ chan_closed d' = chan_closed d.
Proof.
  unfold recv_ready, chan_recv. destruct (chan_buf d).
  - intros Hc. rewrite Hc. eexists _, _. split; [reflexivity|done].
  - intros _. eexists _, _. split; [reflexivity|done].
Qed.

(** One listener whose queue is there and open: if its [done] is ready it is
    taken out of the registry and its queue is closed, if not nothing
    changes. *)
Lemma gcListener_step a h (e : Z * listeningAlerts) :
  listener_ok h e = true →
  ∃ a' h',
    gcListener a h e = Proceed (a', h')
    ∧ (∀ c, chan_closed <$> signals h' !! c = chan_closed <$> signals h !! c)
    ∧ (∀ c, c ≠ l_alerts e.2 → queues h' !! c = queues h !! c)
    ∧ (recv_ready (signal_at h (l_done e.2)) = true →
       listeners a' = delete e.1 (listeners a)
       ∧ chan_closed <$> queues h' !! l_alerts e.2 = Some true)
    ∧ (recv_ready (signal_at h (l_done e.2)) = false → a' = a ∧ h' = h).
Proof.
  unfold listener_ok, gcListener, close_queue. intros Hok.
  destruct (queues h !! l_alerts e.2) as [q|] eqn:Hq; [|done].
  apply negb_true_iff in Hok.
  destruct (recv_ready _) eqn:Hr.
  - destruct (chan_recv_ready _ Hr) as (x & d' & -> & Hd').
    apply signal_at_ready in Hr as [d Hd].
    unfold signal_at in Hd'. rewrite Hd in Hd'. simpl in *.
    rewrite Hq. unfold chan_close. rewrite Hok.
    eexists _, _. split; [reflexivity|]. simpl. split; [|split; [|split]].
    + intros c. destruct (decide (c = l_done e.2)) as [->|Hne].
      * rewrite lookup_insert_eq, Hd. simpl. by rewrite Hd'.
      * by rewrite lookup_insert_ne.
    + intros c Hne. by rewrite lookup_insert_ne.
    + intros _. by rewrite lookup_insert_eq.
    + done.
  - eexists _, _. split; [reflexivity|]. by repeat split.
Qed.

(** The loop over listeners whose queues are there, open and distinct runs
    to its end.  It only takes listeners out of the registry; it takes out
    every listener whose [done] is closed, and closes its queue; the queue of
    a listener it leaves in is as it was. *)
Lemma gcListeners_loop_ok a h (ls : list (Z * listeningAlerts)) :
  NoDup (l_alerts <$> ls.*2) →
  (∀ e, e ∈ ls → listener_ok h e = true) →
  ∃ a' h',
    gcListeners_loop a h ls = Done (a', h')
    ∧ (∀ j l', listeners a' !! j = Some l' → listeners a !! j = Some l')
    ∧ (∀ c, chan_closed <$> signals h' !! c = chan_closed <$> signals h !! c)
    ∧ (∀ c, c ∉ l_alerts <$> ls.*2 → queues h' !! c = queues h !! c)
    ∧ (∀ e, e ∈ ls → chan_closed (signal_at h (l_done e.2)) = true →
            listeners a' !! e.1 = None
            ∧ chan_closed <$> queues h' !! l_alerts e.2 = Some true)
    ∧ (∀ e, e ∈ ls → listeners a' !! e.1 = Some e.2 →
            queues h' !! l_alerts e.2 = queues h !! l_alerts e.2).
Proof.
  revert a h. induction ls as [|e ls IH]; intros a h Hnd Hok; simpl.
  - eexists _, _. split; [reflexivity|].
    split; [done|]. split; [done|]. split; [done|].
    split; intros e' Hin; by apply not_elem_of_nil in Hin.
  - simpl in Hnd. apply NoDup_cons in Hnd as [Hfresh Hnd].
    destruct (gcListener_step a h e) as (a1 & h1 & -> & Hs1 & Ho1 & Hy1 & Hn1).
    { apply Hok. by left. }
    assert (Hrest : ∀ e', e' ∈ ls → l_alerts e'.2 ≠ l_alerts e.2).
    { intros e' Hin Heq. apply Hfresh. rewrite <- Heq.
      apply list_elem_of_fmap. exists e'.2. split; [done|].
      apply list_elem_of_fmap. by exists e'. }
    destruct (IH a1 h1 Hnd) as (a' & h' & -> & Hsub & Hs & Ho & Hy & Hk).
    { intros e' Hin. specialize (Hok e' ltac:(by right)).
      unfold listener_ok in *. by rewrite Ho1 by auto. }
    assert (Hsub1 : ∀ j l', listeners a1 !! j = Some l' →
                            listeners a !! j = Some l').
    { intros j l' Hj.
      destruct (recv_ready (signal_at h (l_done e.2))) eqn:Hr.
      - destruct (Hy1 eq_refl) as [Hd _]. rewrite Hd in Hj.
        by apply lookup_delete_Some in Hj as [_ ?].
      - by destruct (Hn1 eq_refl) as [-> _]. }
    eexists _, _. split; [reflexivity|]. split; [|split; [|split; [|split]]].
    + auto.
    + intros c. by rewrite Hs.
    + intros c Hc. rewrite Ho, Ho1; [done|..].
      * intros ->. apply Hc. by left.
      * intros ?. apply Hc. by right.
    + intros e' [->|Hin]%elem_of_cons Hclosed.
      * assert (Hr : recv_ready (signal_at h (l_done e.2)) = true).
        { unfold recv_ready. rewrite Hclosed. by destruct (chan_buf _). }
        destruct (Hy1 Hr) as [Hd Hq]. split.
        -- destruct (listeners a' !! e.1) as [l'|] eqn:E; [|done].
           apply Hsub in E. rewrite Hd, lookup_delete_eq in E. done.
        -- by rewrite Ho.
      * apply Hy; [done|].
        unfold signal_at in *. specialize (Hs1 (l_done e'.2)).
        destruct (signals h1 !! l_done e'.2), (signals h !! l_done e'.2);
          simpl in *; congruence.
    + intros e' [->|Hin]%elem_of_cons Hstay.
      * rewrite Ho by done.
        destruct (recv_ready (signal_at h (l_done e.2))) eqn:Hr.
        -- destruct (Hy1 eq_refl) as [Hd _]. apply Hsub in Hstay.
           rewrite Hd, lookup_delete_eq in Hstay. done.
        -- by destruct (Hn1 eq_refl) as [_ ->].
      * rewrite Hk by done. apply Ho1. by apply Hrest.
Qed.

(** From a state [wf] the loop of lines 78-86 runs to its end and leaves a
    state [wf]. *)
Lemma gcListeners_ok a h :
  wf a h = true →
  ∃ a' h',
    gcListeners a h = Done (a', h')
    ∧ wf a' h' = true
    ∧ (∀ j l', listeners a' !! j = Some l' → listeners a !! j = Some l')
    ∧ (∀ c, chan_closed <$> signals h' !! c = chan_closed <$> signals h !! c)
    ∧ (∀ i l, listeners a !! i = Some l →
              chan_closed (signal_at h (l_done l)) = true →
              listeners a' !! i = None
              ∧ chan_closed <$> queues h' !! l_alerts l = Some true).
Proof.
  intros Hwf. unfold gcListeners.
  assert (Hwf' := Hwf). apply wf_spec in Hwf' as [Hok Hinj].
  unfold wf in Hwf. apply andb_true_iff in Hwf as [Hall Hnd].
  apply bool_decide_eq_true in Hnd.
  destruct (gcListeners_loop_ok a h (map_to_list (listeners a)) Hnd)
    as (a' & h' & -> & Hsub & Hs & Ho & Hy & Hk).
  { intros e Hin%list_elem_of_In. revert e Hin. by apply forallb_forall. }
  exists a', h'. split; [done|]. split; [|split; [done|split; [done|]]].
  - apply wf_spec. split.
    + intros j l' Hj. specialize (Hk (j, l')). simpl in Hk.
      rewrite Hk; [|apply elem_of_map_to_list|]; eauto.
    + intros j k l1 l2 Hj Hk'. eauto.
  - intros i l Hl Hclosed. apply (Hy (i, l)); [|done].
    by apply elem_of_map_to_list.
Qed.

Lemma gcAlerts_listeners clock a : listeners (gcAlerts clock a) = listeners a.
Proof.
  unfold gcAlerts.
  by destruct (gcAlerts_foldl clock a (map_to_list (alerts a)))
    as (_ & _ & _ & -> & _).
Qed.

Lemma wf_gcAlerts clock a h : wf (gcAlerts clock a) h = wf a h.
Proof. unfold wf. by rewrite gcAlerts_listeners. Qed.

(** From a state [wf] a sweep runs to its end and leaves a state [wf]. *)
Lemma sweep_ok clock a h :
  wf a h = true →
  ∃ a' h',
    sweep clock a h = Done (a', h')
    ∧ wf a' h' = true
    ∧ (∀ j l', listeners a' !! j = Some l' → listeners a !! j = Some l')
    ∧ (∀ c, chan_closed <$> signals h' !! c = chan_closed <$> signals h !! c)
    ∧ (∀ i l, listeners a !! i = Some l →
              chan_closed (signal_at h (l_done l)) = true →
              listeners a' !! i = None
              ∧ chan_closed <$> queues h' !! l_alerts l = Some true).
Proof.
  intros Hwf. unfold sweep.
  destruct (gcListeners_ok (gcAlerts clock a) h)
    as (a' & h' & -> & Hwf' & Hsub & Hs & Hy).
  { by rewrite wf_gcAlerts. }
  rewrite gcAlerts_listeners in Hsub, Hy. by exists a', h'.
Qed.

(** *** Cancelled subscribers *)

(** The [select] of [Put] on a listener that has cancelled and whose queue
    is open goes on: it leaves the queue as it was, or, when the queue has
    room and the runtime takes the send, appends the alert. *)
Lemma select_send_cancelled p h (l : listeningAlerts) alert :
  chan_closed (queue_at h (l_alerts l)) = false →
  chan_closed (signal_at h (l_done l)) = true →
  ∃ h1,
    select_send p h l alert = Proceed h1
    ∧ (queue_at h1 (l_alerts l) = queue_at h (l_alerts l)
       ∨ (p = SelSend
          ∧ chan_has_room (queue_at h (l_alerts l)) = true
          ∧ chan_buf (queue_at h1 (l_alerts l))
            = chan_buf (queue_at h (l_alerts l)) ++ [alert])).
Proof.
  intros Hopen Hclosed.
  assert (Hr : recv_ready (signal_at h (l_done l)) = true).
  { unfold recv_ready. rewrite Hclosed. by destruct (chan_buf _). }
  destruct (chan_recv_ready _ Hr) as (x & d' & Hrecv & _).
  unfold select_send, select_case, send_ready, chan_send.
  rewrite Hr, Hrecv, Hopen. simpl.
  destruct (chan_has_room _) eqn:Hroom; [destruct p|].
  - eexists. split; [reflexivity|]. right. split; [done|]. split; [done|].
    rewrite queue_at_set_queue. by rewrite decide_True.
  - eexists. split; [reflexivity|]. by left.
  - eexists. split; [reflexivity|]. by left.
Qed.

(** A broadcast and the queue of a registered listener that has closed
    [done], when no two listeners share a queue: however the broadcast ends
    it leaves that queue as it was or has put the alert at its end, the
    second only if the runtime took the send and the queue had room; and a
    broadcast that runs to its end then has done the second. *)
Lemma broadcast_cancelled_queue pick h (ls : list (Z * listeningAlerts))
    alert i (l : listeningAlerts) :
  NoDup (l_alerts <$> ls.*2) →
  (i, l) ∈ ls →
  chan_closed (signal_at h (l_done l)) = true →
  let h' := outcome_state (broadcast pick h ls alert) in
  (queue_at h' (l_alerts l) = queue_at h (l_alerts l)
   ∧ (broadcast pick h ls alert = Done h' →
      ¬ (pick i = SelSend ∧ chan_has_room (queue_at h (l_alerts l)) = true)))
  ∨ (pick i = SelSend
     ∧ chan_has_room (queue_at h (l_alerts l)) = true
     ∧ chan_buf (queue_at h' (l_alerts l))
       = chan_buf (queue_at h (l_alerts l)) ++ [alert]).
Proof.
  revert h. induction ls as [|[j l0] ls IH]; intros h Hnd Hin Hclosed.
  { by apply not_elem_of_nil in Hin. }
  simpl in Hnd. apply NoDup_cons in Hnd as [Hfresh Hnd]. simpl.
  destruct (select_send (pick j) h l0 alert) as [h1| |] eqn:E; simpl;
    [|by left..].
  apply elem_of_cons in Hin as [[= -> ->]|Hin].
  - pose proof (broadcast_heap pick h1 ls alert) as (_ & _ & Ho).
    assert (Hsame : queue_at (outcome_state (broadcast pick h1 ls alert))
                      (l_alerts l0) = queue_at h1 (l_alerts l0)).
    { unfold queue_at. by rewrite Ho. }
    rewrite Hsame.
    assert (Hr : recv_ready (signal_at h (l_done l0)) = true).
    { unfold recv_ready. rewrite Hclosed. by destruct (chan_buf _). }
    apply select_send_Proceed in E
      as [(q' & Hs & -> & Hcase)|(x & d' & Hrecv & -> & Hcase)].
    + right. apply chan_send_Proceed in Hs as (_ & Hroom & ->).
      split; [destruct Hcase; congruence|]. split; [done|].
      rewrite queue_at_set_queue. by rewrite decide_True.
    + left. split; [done|]. intros _ [Hp Hroom].
      destruct Hcase as [Hfull|Hd]; [|congruence].
      unfold send_ready in Hfull. by rewrite Hroom, orb_true_r in Hfull.
  - assert (Hne : l_alerts l ≠ l_alerts l0).
    { intros Heq. apply Hfresh. rewrite <- Heq.
      apply list_elem_of_fmap. exists l. split; [done|].
      apply list_elem_of_fmap. by exists (i, l). }
    apply select_send_heap in E as (_ & Hs1 & Ho1).
    assert (Hq1 : queue_at h1 (l_alerts l) = queue_at h (l_alerts l)).
    { unfold queue_at. by rewrite (Ho1 _ Hne). }
    rewrite <- Hq1. apply IH; [done|done|].
    by rewrite (closed_signal_heap h h1).
Qed.

(** A call of [Put] and that queue: however the call ends, the queue has
    got some of the alerts the call resolved, in their order, each at most
    once; none when it had no room, and none when the runtime never took the
    send for this listener. *)
Lemma Put_cancelled_queue pick a h batch i (l : listeningAlerts) :
  wf a h = true →
  listeners a !! i = Some l →
  chan_closed (signal_at h (l_done l)) = true →
  ∃ delivered,
    chan_buf (queue_at (put_state (Put pick a h batch)).2 (l_alerts l))
    = chan_buf (queue_at h (l_alerts l)) ++ delivered
    ∧ delivered `sublist_of` resolved_all (alerts a) batch
    ∧ (chan_has_room (queue_at h (l_alerts l)) = false → delivered = [])
    ∧ ((∀ k, pick k i = SelDone) → delivered = []).
Proof.
  revert pick a h. induction batch as [|alert rest IH];
    intros pick a h Hwf Hl Hclosed; simpl.
  { exists []. by rewrite app_nil_r. }
  assert (Hnd : NoDup (l_alerts <$> (map_to_list (listeners a)).*2)).
  { unfold wf in Hwf. apply andb_true_iff in Hwf as [_ Hnd].
    by apply bool_decide_eq_true in Hnd. }
  pose proof (broadcast_cancelled_queue (pick O) h (map_to_list (listeners a))
                (resolve (alerts a) alert) i l Hnd
                ltac:(by apply elem_of_map_to_list) Hclosed) as Hb.
  pose proof (broadcast_heap (pick O) h (map_to_list (listeners a))
                (resolve (alerts a) alert)) as (Hq & Hs & _).
  destruct (broadcast _ _ _ _) as [h1|h1|h1]; simpl in *.
  - destruct (IH (λ k, pick (S k)) (set_alerts a (store (alerts a) alert)) h1)
      as (rest' & Hbuf & Hsub & Hfull & Hnever).
    { by apply (wf_heap _ h). }
    { done. }
    { by rewrite (closed_signal_heap h h1). }
    destruct Hb as [[Heq _]|(Hp & Hroom & Happ)].
    + exists rest'. rewrite Hbuf, Heq. split; [done|].
      split; [by apply sublist_cons|]. split.
      * intros Hno. apply Hfull. by rewrite Heq.
      * intros Hall. apply Hnever. intros k. apply Hall.
    + exists (resolve (alerts a) alert :: rest').
      rewrite Hbuf, Happ, <- app_assoc. split; [done|].
      split; [by apply sublist_skip|]. split.
      * intros Hno. congruence.
      * intros Hall. specialize (Hall O). congruence.
  - destruct Hb as [[Heq _]|(Hp & Hroom & Happ)].
    + exists []. rewrite Heq, app_nil_r. split; [done|].
      split; [apply sublist_nil_l | done].
    + exists [resolve (alerts a) alert]. split; [done|].
      split; [apply sublist_skip, sublist_nil_l|]. split.
      * intros Hno. congruence.
      * intros Hall. specialize (Hall O). congruence.
  - destruct Hb as [[Heq _]|(Hp & Hroom & Happ)].
    + exists []. rewrite Heq, app_nil_r. split; [done|].
      split; [apply sublist_nil_l | done].
    + exists [resolve (alerts a) alert]. split; [done|].
      split; [apply sublist_skip, sublist_nil_l|]. split.
      * intros Hno. congruence.
      * intros Hall. specialize (Hall O). congruence.
Qed.

(** A call of [Put] that waits does not wait on a listener that has closed
    [done]: it waits on another one. *)
Lemma Put_parks_elsewhere pick a h batch i (l : listeningAlerts) a' h' :
  listeners a !! i = Some l →
  chan_closed (signal_at h (l_done l)) = true →
  Put pick a h batch = PutParked a' h' →
  ∃ j l', j ≠ i ∧ listeners a !! j = Some l'
          ∧ send_ready (queue_at h' (l_alerts l')) = false
          ∧ recv_ready (signal_at h' (l_done l')) = false.
Proof.
  intros Hl Hclosed HP.
  pose proof (Put_outcomes pick a h batch) as Hout.
  pose proof (Put_listeners pick a h batch) as Hls.
  pose proof (Put_heap pick a h batch) as (_ & Hs & _).
  rewrite HP in Hout, Hls, Hs. simpl in *.
  destruct Hout as (j & l' & Hj & Hfull & Hlive).
  rewrite Hls in Hj. exists j, l'. split; [|done].
  intros ->. assert (l' = l) as -> by congruence.
  unfold recv_ready in Hlive.
  rewrite (closed_signal_heap h h'), Hclosed in Hlive by done.
  by destruct (chan_buf _).
Qed.

(** A call with one alert that returns has put the alert into that queue
    when the runtime took the send and the queue had room. *)
Lemma Put_cancelled_delivers pick a h alert i (l : listeningAlerts) a' h' err :
  wf a h = true →
  listeners a !! i = Some l →
  chan_closed (signal_at h (l_done l)) = true →
  Put pick a h [alert] = PutReturned a' h' err →
  pick O i = SelSend →
  chan_has_room (queue_at h (l_alerts l)) = true →
  chan_buf (queue_at h' (l_alerts l))
  = chan_buf (queue_at h (l_alerts l)) ++ [resolve (alerts a) alert].
Proof.
  intros Hwf Hl Hclosed HP Hp Hroom. simpl in HP.
  assert (Hnd : NoDup (l_alerts <$> (map_to_list (listeners a)).*2)).
  { unfold wf in Hwf. apply andb_true_iff in Hwf as [_ Hnd].
    by apply bool_decide_eq_true in Hnd. }
  pose proof (broadcast_cancelled_queue (pick O) h (map_to_list (listeners a))
                (resolve (alerts a) alert) i l Hnd
                ltac:(by apply elem_of_map_to_list) Hclosed) as Hb.
  destruct (broadcast _ _ _ _) as [h1|h1|h1]; [|done..].
  injection HP as <- <- <-. simpl in Hb.
  destruct Hb as [[_ Hnot]|(_ & _ & Happ)]; [|done].
  destruct (Hnot eq_refl). by split.
Qed.

(** C6, as the code has it.  A registered listener that has closed [done]
    is taken out of the registry by the next sweep, which closes its queue;
    after that sweep no [Put] changes its queue.  Until that sweep a [Put]
    never waits on it: its [select] for this listener goes on, and a call
    that waits waits on another listener.  However such a [Put] ends, it has
    put into the queue of this listener only alerts of the call, in their
    order and each at most once, none when the queue had no room and none
    when the runtime never took the send; and a call with one alert that
    returns has put the alert there when the runtime took the send and the
    queue had room. *)
Theorem cancelled_listener_reclaimed clock a h i (l : listeningAlerts) :
  wf a h = true →
  listeners a !! i = Some l →
  chan_closed (signal_at h (l_done l)) = true →
  (∃ a' h',
     sweep clock a h = Done (a', h')
     ∧ listeners a' !! i = None
     ∧ chan_closed (queue_at h' (l_alerts l)) = true
     ∧ ∀ pick batch,
         queue_at (put_state (Put pick a' h' batch)).2 (l_alerts l)
         = queue_at h' (l_alerts l))
  ∧ (∀ p alert,
       ∃ h1,
         select_send p h l alert = Proceed h1
         ∧ (queue_at h1 (l_alerts l) = queue_at h (l_alerts l)
            ∨ (p = SelSend
               ∧ chan_has_room (queue_at h (l_alerts l)) = true
               ∧ chan_buf (queue_at h1 (l_alerts l))
                 = chan_buf (queue_at h (l_alerts l)) ++ [alert])))
  ∧ (∀ pick batch a' h',
       Put pick a h batch = PutParked a' h' →
       ∃ j l', j ≠ i ∧ listeners a !! j = Some l'
               ∧ send_ready (queue_at h' (l_alerts l')) = false
               ∧ recv_ready (signal_at h' (l_done l')) = false)
  ∧ (∀ pick batch,
       ∃ delivered,
         chan_buf (queue_at (put_state (Put pick a h batch)).2 (l_alerts l))
         = chan_buf (queue_at h (l_alerts l)) ++ delivered
         ∧ delivered `sublist_of` resolved_all (alerts a) batch
         ∧ (chan_has_room (queue_at h (l_alerts l)) = false → delivered = [])
         ∧ ((∀ k, pick k i = SelDone) → delivered = []))
  ∧ (∀ pick alert a' h' err,
       Put pick a h [alert] = PutReturned a' h' err →
       pick O i = SelSend →
       chan_has_room (queue_at h (l_alerts l)) = true →
       chan_buf (queue_at h' (l_alerts l))
       = chan_buf (queue_at h (l_alerts l)) ++ [resolve (alerts a) alert]).
Proof.
  intros Hwf Hl Hclosed. split; [|split; [|split; [|split]]].
  - destruct (sweep_ok clock a h Hwf) as (a' & h' & Hsweep & _ & Hsub & _ & Hy).
    destruct (Hy i l Hl Hclosed) as [Hgone Hq].
    exists a', h'. split; [done|]. split; [done|]. split.
    + unfold queue_at. destruct (queues h' !! l_alerts l); simpl in *; congruence.
    + intros pick batch.
      destruct (Put_heap pick a' h' batch) as (_ & _ & Ho).
      unfold queue_at. rewrite Ho; [done|].
      intros j l' Hj Heq. apply wf_spec in Hwf as [_ Hinj].
      assert (j = i) as -> by (eapply Hinj; eauto).
      congruence.
  - intros p alert. apply select_send_cancelled; [|done].
    apply wf_spec in Hwf as [Hok _].
    destruct (Hok i l Hl) as (q & Hq & Hopen).
    unfold queue_at. by rewrite Hq.
  - intros pick batch a' h'. by apply (Put_parks_elsewhere _ _ _ _ _ l).
  - intros pick batch. by apply Put_cancelled_queue.
  - intros pick alert a' h' err. by apply Put_cancelled_delivers.
Qed.

(** *** Close *)

Lemma sweep_stopGC clock a h :
  stopGC (outcome_state (sweep clock a h)).1 = stopGC a.
Proof.
  unfold sweep, gcListeners.
  destruct (gcListeners_loop_frame (gcAlerts clock a) h
              (map_to_list (listeners (gcAlerts clock a)))) as (_ & _ & ->).
  unfold gcAlerts.
  by destruct (gcAlerts_foldl clock a (map_to_list (alerts a)))
    as (_ & _ & -> & _).
Qed.

(** Neither [Put] nor [Subscribe] touches [stopGC]: only [Close] closes
    it. *)
Lemma Put_stopGC pick a h batch :
  stopGC (put_state (Put pick a h batch)).1 = stopGC a.
Proof.
  revert pick a h. induction batch as [|alert rest IH]; intros pick a h;
    simpl; [done|].
  destruct (broadcast _ _ _ _); simpl; [|done..].
  by rewrite IH.
Qed.

Lemma Subscribe_stopGC a h a' h' it :
  Subscribe a h = Proceed (a', h', it) → stopGC a' = stopGC a.
Proof.
  unfold Subscribe. cbn [getPending].
  destruct (preload _ _); [|done..]. by intros [= <- <- <-].
Qed.

(** As long as [stopGC] is open the loop of [runGC] is not left by
    [return]. *)
Lemma runGC_open_never_returns turns a h :
  recv_ready (stopGC a) = false →
  (runGC turns a h).1 ≠ GcReturned.
Proof.
  revert a h. induction turns as [|t rest IH]; intros a h Hopen; simpl; [done|].
  unfold runGC_select. rewrite Hopen.
  destruct (timer_fired t); [|done].
  pose proof (sweep_stopGC (gc_clock t) a h) as Hs.
  destruct (sweep (gc_clock t) a h) as [[a' h']|s|s]; simpl in *; [|done..].
  apply IH. by rewrite Hs.
Qed.

(** C9.  On a provider whose [stopGC] is open, as [NewAlerts] makes it,
    [Close] returns a nil error and closes [stopGC]; from then on the loop of
    [runGC] is left at its next [select], unless the timer has fired too and
    the runtime takes that case; and a second [Close] panics. *)
Theorem Close_once_then_panic a :
  chan_closed (stopGC a) = false →
  ∃ a',
    Close a = Proceed (a', None)
    ∧ chan_closed (stopGC a') = true
    ∧ (∀ t rest h,
         timer_fired t = false ∨ gc_pick t = GcStop →
         runGC (t :: rest) a' h = (GcReturned, (a', h)))
    ∧ Close a' = Panic.
Proof.
  intros Hopen. unfold Close, chan_close. rewrite Hopen.
  eexists. split; [reflexivity|]. simpl. split; [done|]. split; [|done].
  intros t rest h Ht. unfold runGC_select, recv_ready. simpl.
  destruct (chan_buf (stopGC a)); destruct (timer_fired t);
    destruct (gc_pick t); destruct Ht; try done.
Qed.

End Properties.

(** ** The properties at the sample data *)

Lemma Put_merge_policy_witness :
  alerts provider_A !! Alert_Fingerprint alert_inside = Some alert_A
  ∧ alerts (put_state (Put (λ _ _, SelSend) provider_A no_heap [alert_inside])).1
      !! Alert_Fingerprint alert_inside
    = Some (Merge alert_A alert_inside).
Proof.
  split; [reflexivity|].
  apply (Put_merge_policy (λ _ _, SelSend) provider_A no_heap
           alert_inside alert_A); [reflexivity|].
  right. simpl. lia.
Defined.

Lemma Put_containing_replaces_witness :
  alerts provider_A !! Alert_Fingerprint alert_around = Some alert_A
  ∧ alerts (put_state (Put (λ _ _, SelSend) provider_A no_heap [alert_around])).1
      !! Alert_Fingerprint alert_around
    = Some alert_around.
Proof.
  split; [reflexivity|].
  apply (Put_containing_replaces (λ _ _, SelSend) provider_A no_heap
           alert_around alert_A); [reflexivity | simpl; lia | simpl; lia].
Defined.

Lemma Put_fresh_then_Get_witness :
  alerts provider_A !! Alert_Fingerprint alert_B = None
  ∧ Get (put_state (Put (λ _ _, SelSend) provider_A no_heap [alert_B])).1
        (Alert_Fingerprint alert_B)
    = (Some alert_B, None).
Proof.
  split; [reflexivity|].
  apply (Put_fresh_then_Get (λ _ _, SelSend) provider_A no_heap alert_B).
  reflexivity.
Defined.

Lemma Close_once_then_panic_witness :
  chan_closed (stopGC fresh_provider) = false
  ∧ ∃ a', Close fresh_provider = Proceed (a', None)
          ∧ Close a' = @Panic (@Alerts SampleAlert * option error).
Proof.
  split; [reflexivity|].
  destruct (Close_once_then_panic fresh_provider eq_refl)
    as (a' & Hc & _ & _ & Hp).
  by exists a'.
Defined.

Lemma cancelled_listener_reclaimed_witness :
  wf cancelled.1 cancelled.2 = true
  ∧ listeners cancelled.1 !! 0 = Some subscriber
  ∧ chan_closed (signal_at cancelled.2 (l_done subscriber)) = true
  ∧ ∃ a' h',
      sweep (λ _, 50) cancelled.1 cancelled.2 = Done (a', h')
      ∧ listeners a' !! 0 = None
      ∧ chan_closed (queue_at h' (l_alerts subscriber)) = true.
Proof.
  split; [reflexivity|]. split; [reflexivity|]. split; [reflexivity|].
  destruct (cancelled_listener_reclaimed (λ _, 50) cancelled.1 cancelled.2
              0 subscriber eq_refl eq_refl eq_refl)
    as [(a' & h' & Hs & Hgone & Hq & _) _].
  by exists a', h'.
Defined.

(** C6 as it is worded fails: after the subscriber has cancelled, a [Put]
    at whose [select] the runtime takes the send puts its alert into the
    subscriber's queue. *)
Lemma Put_after_cancel_delivers :
  ¬ (∀ (pick : nat → Z → sel) (a : @Alerts SampleAlert) h i l batch,
       wf a h = true →
       listeners a !! i = Some l →
       chan_closed (signal_at h (l_done l)) = true →
       queue_at (put_state (Put pick a h batch)).2 (l_alerts l)
       = queue_at h (l_alerts l)).
Proof.
  intros Hclaim.
  specialize (Hclaim (λ _ _, SelSend) cancelled.1 cancelled.2 0 subscriber
                [alert_B] eq_refl eq_refl eq_refl).
  vm_compute in Hclaim. discriminate Hclaim.
Qed.

Lemma Put_returns_nil_or_waits_witness :
  wf subscribed.1.1 subscribed.1.2 = true
  ∧ ∃ h', Put (λ _ _, SelSend) subscribed.1.1 subscribed.1.2
            [alert_B; alert_later]
          = PutReturned
              (set_alerts subscribed.1.1
                 (store_all (alerts subscribed.1.1) [alert_B; alert_later]))
              h' None.
Proof.
  split; [reflexivity|].
  destruct (Put_returns_nil_or_waits (λ _ _, SelSend) subscribed.1.1
              subscribed.1.2 [alert_B; alert_later] eq_refl)
    as (_ & Hreturns & _).
  apply Hreturns. intros i l Hl. right.
  assert (Hreg : listeners subscribed.1.1 = {[0 := subscriber]})
    by reflexivity.
  rewrite Hreg in Hl. apply lookup_singleton_Some in Hl as [_ <-].
  vm_compute. discriminate.
Defined.

(** C8 as it is worded fails: from a state the operations produce, with a
    subscriber that is live and does not receive, the call that would put
    the 201st alert into its queue does not return. *)
Lemma Put_does_not_always_return :
  ¬ (∀ (pick : nat → Z → sel) (a : @Alerts SampleAlert) h batch,
       wf a h = true →
       ∃ a' h', Put pick a h batch = PutReturned a' h' None).
Proof.
  intros Hclaim.
  destruct (Hclaim (λ _ _, SelSend) subscribed.1.1 subscribed.1.2
              (replicate 200 alert_B) eq_refl) as (a' & h' & HP).
  vm_compute in HP. discriminate HP.
Qed.

(** ** Scenarios *)

(** Two alerts of one fingerprint with disjoint intervals: the second
    replaces the first. *)
Example disjoint_intervals_replace :
  Get (put_state (Put (λ _ _, SelSend) fresh_provider no_heap
                    [alert_A; alert_later])).1 7%N
  = (Some alert_later, None).
Proof. reflexivity. Qed.

(** The second alert starts inside the first: [Get] returns the merge of the
    two. *)
Example start_inside_merges :
  Get (put_state (Put (λ _ _, SelSend) fresh_provider no_heap
                    [alert_A; alert_inside])).1 7%N
  = (Some (Merge alert_A alert_inside), None).
Proof. reflexivity. Qed.

(** A sweep at instant 150 forgets [alert_A], which ended at 100, and tells
    the marker once; a sweep at instant 100 keeps it. *)
Example sweep_after_end :
  let a' := (outcome_state (sweep (λ _, 150) provider_A no_heap)).1 in
  Get a' 7%N = (None, Some ErrNotFound) ∧ marker a' = [7%N].
Proof. split; reflexivity. Qed.

Example sweep_at_end :
  let a' := (outcome_state (sweep (λ _, 100) provider_A no_heap)).1 in
  Get a' 7%N = (Some alert_A, None) ∧ marker a' = [].
Proof. split; reflexivity. Qed.

(** A subscriber gets the snapshot first and then what is put, in order. *)
Example subscriber_receives_in_order :
  ∃ a' h', Put (λ _ _, SelSend) subscribed.1.1 subscribed.1.2
             [alert_B; alert_later] = PutReturned a' h' None
           ∧ chan_buf (queue_at h' (it_ch subscribed.2))
             = [alert_A; alert_B; alert_later].
Proof. by eexists _, _. Qed.

(** Backpressure: the queue of the subscriber holds 200 alerts; the call
    that would put one more waits while the subscriber is live, and returns
    once it has cancelled. *)
Example Put_waits_on_full_queue :
  ∃ a' h', Put (λ _ _, SelSend) subscribed.1.1 subscribed.1.2
             (replicate 200 alert_B) = PutParked a' h'.
Proof. vm_compute. by eexists _, _. Qed.

Example Put_returns_after_cancel :
  ∃ a' h', Put (λ _ _, SelSend) cancelled.1 cancelled.2
             (replicate 200 alert_B) = PutReturned a' h' None.
Proof. vm_compute. by eexists _, _. Qed.

(** ** Further properties of the operations *)

Section Operations.

Context {Alert : Type} `{AlertOps Alert}.

Implicit Types (a : @Alerts Alert) (h : @Heap Alert) (alert old : Alert).
Implicit Types (m : gmap Fingerprint Alert) (fp : Fingerprint).

(** *** Put *)

(** X1.  However it ends, [Put] changes of the provider nothing but the
    store, and of the store only the entries under the fingerprints of its
    alerts; it removes no entry. *)
Theorem Put_frame pick a h batch :
  let a' := (put_state (Put pick a h batch)).1 in
  marker a' = marker a ∧ listeners a' = listeners a ∧ next a' = next a
  ∧ stopGC a' = stopGC a ∧ intervalGC a' = intervalGC a
  ∧ (∀ fp, fp ∉ Alert_Fingerprint <$> batch →
           alerts a' !! fp = alerts a !! fp)
  ∧ (∀ fp, is_Some (alerts a !! fp) → is_Some (alerts a' !! fp)).
Proof.
  revert pick a h. induction batch as [|alert rest IH]; intros pick a h;
    simpl; [done|].
  assert (Hone : (∀ fp, fp ∉ Alert_Fingerprint alert :: (Alert_Fingerprint <$> rest) →
                        store (alerts a) alert !! fp = alerts a !! fp)
                 ∧ (∀ fp, is_Some (alerts a !! fp) →
                          is_Some (store (alerts a) alert !! fp))).
  { unfold store. split.
    - intros fp Hfp. rewrite lookup_insert_ne; [done|].
      intros <-. apply Hfp. by left.
    - intros fp Hfp. rewrite lookup_insert. by case_decide. }
  destruct Hone as [Hother Hkeep].
  destruct (broadcast _ _ _ _) as [h1|h1|h1]; simpl; [|done..].
  destruct (IH (λ k, pick (S k)) (set_alerts a (store (alerts a) alert)) h1)
    as (-> & -> & -> & -> & -> & IHother & IHkeep). simpl.
  repeat (split; [done|]). split.
  - intros fp Hfp. rewrite IHother, Hother; [done|done|].
    intros Hin. apply Hfp. by right.
  - intros fp Hfp. by apply IHkeep, Hkeep.
Qed.

(** X2.  A call with several alerts is the same as successive calls: once
    the first alerts are through, the call goes on as a call with the others
    from the state reached; if the first alerts leave the call waiting or
    panicked, so it ends. *)
Theorem Put_in_sequence pick a h pre post :
  match Put pick a h pre with
  | PutReturned a1 h1 _ =>
      Put pick a h (pre ++ post)
      = Put (λ k, pick (length pre + k)%nat) a1 h1 post
  | r => Put pick a h (pre ++ post) = r
  end.
Proof.
  revert pick a h. induction pre as [|alert rest IH]; intros pick a h;
    simpl; [done|].
  destruct (broadcast _ _ _ _) as [h1|h1|h1]; [|done..].
  apply (IH (λ k, pick (S k))).
Qed.

(** A [select] of [Put] leaves alone a [done] that is not ready and a queue
    into which nothing can be sent. *)
Lemma select_send_keeps_unready p h (l0 : listeningAlerts) alert h1 c :
  select_send p h l0 alert = Proceed h1 →
  recv_ready (signal_at h c) = false →
  recv_ready (signal_at h1 c) = false.
Proof.
  intros [(q' & Hs & -> & _)|(x & d' & Hr & -> & _)]%select_send_Proceed Hc;
    [done|].
  apply chan_recv_Proceed in Hr as [Hready _].
  unfold signal_at, set_signal. simpl.
  destruct (decide (c = l_done l0)) as [->|Hne].
  - unfold signal_at in *. congruence.
  - by rewrite lookup_insert_ne.
Qed.

Lemma select_send_keeps_full p h (l0 : listeningAlerts) alert h1 c :
  select_send p h l0 alert = Proceed h1 →
  send_ready (queue_at h c) = false →
  send_ready (queue_at h1 c) = false.
Proof.
  intros [(q' & Hs & -> & _)|(x & d' & Hr & -> & _)]%select_send_Proceed Hc;
    [|done].
  apply chan_send_Proceed in Hs as (Hopen & Hroom & _).
  rewrite queue_at_set_queue. case_decide as Heq; [|done].
  subst. unfold send_ready in Hc. rewrite Hopen, Hroom in Hc. done.
Qed.

Lemma broadcast_keeps_unready pick h ls alert h' c :
  broadcast pick h ls alert = Done h' →
  recv_ready (signal_at h c) = false →
  recv_ready (signal_at h' c) = false.
Proof.
  revert h. induction ls as [|[j l0] ls IH]; intros h; simpl.
  - by intros [= <-].
  - destruct (select_send (pick j) h l0 alert) as [h1| |] eqn:E; [|done..].
    intros Hb Hc. apply (IH h1 Hb).
    by eapply select_send_keeps_unready.
Qed.

(** A broadcast that runs to its end has put the alert at the end of the
    queue of every listener whose [done] is not ready. *)
Lemma broadcast_delivers pick h (ls : list (Z * listeningAlerts)) alert h' i l :
  NoDup (l_alerts <$> ls.*2) →
  (i, l) ∈ ls →
  recv_ready (signal_at h (l_done l)) = false →
  broadcast pick h ls alert = Done h' →
  chan_buf (queue_at h' (l_alerts l))
  = chan_buf (queue_at h (l_alerts l)) ++ [alert].
Proof.
  revert h. induction ls as [|[j l0] ls IH]; intros h Hnd Hin Hlive; simpl.
  { by apply not_elem_of_nil in Hin. }
  simpl in Hnd. apply NoDup_cons in Hnd as [Hfresh Hnd].
  destruct (select_send (pick j) h l0 alert) as [h1| |] eqn:E; [|done..].
  intros Hb. apply elem_of_cons in Hin as [[= -> ->]|Hin].
  - pose proof (broadcast_heap pick h1 ls alert) as (_ & _ & Ho).
    rewrite Hb in Ho. simpl in Ho.
    replace (queue_at h' (l_alerts l0)) with (queue_at h1 (l_alerts l0))
      by (unfold queue_at; by rewrite Ho).
    apply select_send_Proceed in E
      as [(q' & Hs & -> & _)|(x & d' & Hr & _)].
    + apply chan_send_Proceed in Hs as (_ & _ & ->).
      rewrite queue_at_set_queue. by rewrite decide_True.
    + apply chan_recv_Proceed in Hr as [Hready _]. congruence.
  - assert (Hne : l_alerts l ≠ l_alerts l0).
    { intros Heq. apply Hfresh. rewrite <- Heq.
      apply list_elem_of_fmap. exists l. split; [done|].
      apply list_elem_of_fmap. by exists (i, l). }
    rewrite (IH h1 Hnd Hin); [|by eapply select_send_keeps_unready|done].
    apply select_send_heap in E as (_ & _ & Ho).
    unfold queue_at. by rewrite (Ho _ Hne).
Qed.

(** X3.  A call of [Put] that returns has put the alerts it resolved, each
    once and in the order of the call, at the end of the queue of every
    registered listener whose [done] is not ready. *)
Theorem Put_delivers_in_order pick a h batch i (l : listeningAlerts) a' h' err :
  wf a h = true →
  listeners a !! i = Some l →
  recv_ready (signal_at h (l_done l)) = false →
  Put pick a h batch = PutReturned a' h' err →
  chan_buf (queue_at h' (l_alerts l))
  = chan_buf (queue_at h (l_alerts l)) ++ resolved_all (alerts a) batch.
Proof.
  revert pick a h. induction batch as [|alert rest IH];
    intros pick a h Hwf Hl Hlive; simpl.
  - intros [= <- <- <-]. by rewrite app_nil_r.
  - destruct (broadcast _ _ _ _) as [h1|h1|h1] eqn:Hb; [|done..].
    intros HP.
    pose proof (broadcast_heap (pick O) h (map_to_list (listeners a))
                  (resolve (alerts a) alert)) as (Hq & _).
    rewrite Hb in Hq. simpl in Hq.
    assert (Hnd : NoDup (l_alerts <$> (map_to_list (listeners a)).*2)).
    { unfold wf in Hwf. apply andb_true_iff in Hwf as [_ Hnd].
      by apply bool_decide_eq_true in Hnd. }
    assert (Hwf1 : wf (set_alerts a (store (alerts a) alert)) h1 = true)
      by (by apply (wf_heap _ h)).
    assert (Hlive1 : recv_ready (signal_at h1 (l_done l)) = false)
      by (by eapply broadcast_keeps_unready).
    rewrite (IH _ _ h1 Hwf1 Hl Hlive1 HP).
    rewrite (broadcast_delivers _ _ _ _ _ i l Hnd ltac:(by apply
               elem_of_map_to_list) Hlive Hb).
    by rewrite <- app_assoc.
Qed.

(** X4.  From a state the operations produce, a call of [Put] returns, with
    a nil error and all its alerts stored, whenever every registered
    listener has closed [done] or has room in its queue for as many alerts
    as the call has. *)
Theorem Put_returns_when_room pick a h batch :
  wf a h = true →
  (∀ i l, listeners a !! i = Some l →
          chan_closed (signal_at h (l_done l)) = true
          ∨ Z.of_nat (length (chan_buf (queue_at h (l_alerts l))))
            + Z.of_nat (length batch) ≤ chan_cap (queue_at h (l_alerts l))) →
  ∃ h', Put pick a h batch
        = PutReturned (set_alerts a (store_all (alerts a) batch)) h' None.
Proof. apply Put_returns_with_room. Qed.

(** A broadcast does not run to its end past a listener whose queue takes
    nothing and whose [done] is not ready. *)
Lemma broadcast_blocked pick h (ls : list (Z * listeningAlerts)) alert i l h' :
  (i, l) ∈ ls →
  send_ready (queue_at h (l_alerts l)) = false →
  recv_ready (signal_at h (l_done l)) = false →
  broadcast pick h ls alert ≠ Done h'.
Proof.
  revert h. induction ls as [|[j l0] ls IH]; intros h Hin Hfull Hlive; simpl.
  { by apply not_elem_of_nil in Hin. }
  destruct (select_send (pick j) h l0 alert) as [h1| |] eqn:E; [|done..].
  apply elem_of_cons in Hin as [[= -> ->]|Hin].
  - unfold select_send, select_case in E. by rewrite Hfull, Hlive in E.
  - apply IH; [done|..].
    + by eapply select_send_keeps_full.
    + by eapply select_send_keeps_unready.
Qed.

(** A call with an alert waits in the first broadcast when a registered
    listener has a full queue and a [done] that is not ready. *)
Lemma Put_parks_on_full pick a h alert rest i (l : listeningAlerts) :
  wf a h = true →
  listeners a !! i = Some l →
  chan_has_room (queue_at h (l_alerts l)) = false →
  recv_ready (signal_at h (l_done l)) = false →
  ∃ a' h', Put pick a h (alert :: rest) = PutParked a' h'
           ∧ alerts a' = store (alerts a) alert.
Proof.
  intros Hwf Hl Hfull Hlive.
  assert (Hsend : send_ready (queue_at h (l_alerts l)) = false).
  { unfold send_ready. rewrite Hfull.
    apply wf_spec in Hwf as [Hok _]. destruct (Hok i l Hl) as (q & Hq & Hopen).
    unfold queue_at. rewrite Hq. simpl. by rewrite Hopen. }
  pose proof (Put_no_panic pick a h (alert :: rest)) as Hnp.
  simpl in *.
  destruct (broadcast _ _ _ _) as [h1|h1|h1] eqn:Hb.
  - exfalso. eapply broadcast_blocked; [|done|done|apply Hb].
    by apply elem_of_map_to_list.
  - by eexists _, _.
  - exfalso. by eapply Hnp.
Qed.

(** X5.  Backpressure: from a state the operations produce, a call of [Put]
    with at least one alert does not return while some registered listener
    has a full queue and a [done] that is not ready.  It waits in the
    broadcast of its first alert, which it has already stored. *)
Theorem Put_waits_on_full_listener pick a h alert rest i (l : listeningAlerts) :
  wf a h = true →
  listeners a !! i = Some l →
  chan_has_room (queue_at h (l_alerts l)) = false →
  recv_ready (signal_at h (l_done l)) = false →
  ∃ a' h', Put pick a h (alert :: rest) = PutParked a' h'
           ∧ alerts a' = store (alerts a) alert.
Proof. apply Put_parks_on_full. Qed.

(** X6.  From a state the operations produce, [Put] never sends on a closed
    channel, so it does not panic, and the state it leaves is again such a
    state. *)
Theorem Put_keeps_wf pick a h batch :
  wf a h = true →
  (∀ a' h', Put pick a h batch ≠ PutPanicked a' h')
  ∧ wf (put_state (Put pick a h batch)).1 (put_state (Put pick a h batch)).2
    = true.
Proof.
  intros Hwf. split.
  - intros a' h'. by apply Put_no_panic.
  - by apply wf_Put.
Qed.

(** X7.  The merge policy holds for an alert anywhere in a call: when the
    alerts before it are through and the store then holds [old] under its
    fingerprint, the call stores [Merge old alert] if [alert] ends or starts
    strictly inside the interval of [old], and [alert] otherwise. *)
Theorem Put_merge_policy_in_batch pick a h pre alert a1 h1 err old :
  Put pick a h pre = PutReturned a1 h1 err →
  alerts a1 !! Alert_Fingerprint alert = Some old →
  alerts (put_state (Put pick a h (pre ++ [alert]))).1
    !! Alert_Fingerprint alert
  = Some (if overlaps old alert then Merge old alert else alert).
Proof.
  intros Hpre Hold. rewrite (Put_app _ _ _ _ _ _ _ _ Hpre).
  rewrite Put_one_store. unfold store. rewrite lookup_insert_eq.
  unfold resolve. by rewrite Hold.
Qed.

(** *** Subscribe *)

Lemma Subscribe_result a h a' h' it :
  Subscribe a h = Proceed (a', h', it) →
  it = NewAlertIterator (fresh_loc (queues h)) (fresh_loc (signals h)) None
  ∧ a' = register a (it_ch it) (it_done it)
  ∧ signals h' = <[it_done it := make_chan 0]> (signals h)
  ∧ ∃ q, queues h' = <[it_ch it := q]> (queues h).
Proof.
  unfold Subscribe. cbn [getPending].
  destruct (preload _ _) as [q| |]; [|done..].
  intros [= <- <- <-]. simpl. split; [done|]. split; [done|]. split; [done|].
  by exists q.
Qed.

(** X8.  From a state the operations produce [Subscribe] leaves such a
    state: the two channels it makes are new, the new [done] is open, and
    the channels there were are as they were. *)
Theorem Subscribe_keeps_wf a h :
  wf a h = true →
  ∃ a' h' it,
    Subscribe a h = Proceed (a', h', it)
    ∧ wf a' h' = true
    ∧ queues h !! it_ch it = None
    ∧ signals h !! it_done it = None
    ∧ signals h' !! it_done it = Some (make_chan 0)
    ∧ (∀ c q, queues h !! c = Some q → queues h' !! c = Some q)
    ∧ (∀ c d, signals h !! c = Some d → signals h' !! c = Some d).
Proof.
  intros Hwf.
  destruct (wf_Subscribe a h Hwf) as (a' & h' & it & HS & Hwf' & Hq & Hs).
  exists a', h', it. split; [done|]. split; [done|].
  destruct (Subscribe_result _ _ _ _ _ HS) as (-> & _ & Hsig & _). simpl in *.
  split; [apply fresh_loc_None|]. split; [apply fresh_loc_None|].
  split; [|done]. by rewrite Hsig, lookup_insert_eq.
Qed.

Lemma ids_below_spec a :
  ids_below a = true ↔ ∀ i l, listeners a !! i = Some l → i < next a.
Proof.
  unfold ids_below. rewrite forallb_forall. split.
  - intros Hall i l Hl. apply Z.ltb_lt.
    apply (Hall (i, l)). by apply list_elem_of_In, elem_of_map_to_list.
  - intros Hall [i l] Hin%list_elem_of_In%elem_of_map_to_list.
    apply Z.ltb_lt. simpl. eauto.
Qed.

(** X9.  Listener ids are not reused: while the ids in the registry are
    below [a.next] and [a.next] has not reached the greatest [int],
    [Subscribe] registers the new listener under an id no listener has,
    keeps every other listener, and moves [a.next] up by one, the ids again
    below it. *)
Theorem Subscribe_fresh_id a h a' h' it :
  ids_below a = true →
  0 ≤ next a < 2 ^ 63 - 1 →
  Subscribe a h = Proceed (a', h', it) →
  listeners a !! next a = None
  ∧ listeners a' !! next a = Some (mkListening (it_ch it) (it_done it))
  ∧ (∀ i l, listeners a !! i = Some l → listeners a' !! i = Some l)
  ∧ next a' = next a + 1
  ∧ ids_below a' = true.
Proof.
  intros Hids Hnext HS.
  assert (Hb := Hids). rewrite ids_below_spec in Hb.
  destruct (Subscribe_result _ _ _ _ _ HS) as (_ & -> & _).
  assert (Hnone : listeners a !! next a = None).
  { destruct (listeners a !! next a) as [l|] eqn:E; [|done].
    apply Hb in E. lia. }
  assert (Hwrap : int_wrap (next a + 1) = next a + 1).
  { unfold int_wrap. rewrite Z.mod_small; lia. }
  split; [done|]. simpl. split; [by rewrite lookup_insert_eq|].
  split; [|split; [done|]].
  - intros i l Hl. rewrite lookup_insert_ne; [done|]. congruence.
  - apply ids_below_spec. simpl. rewrite Hwrap.
    intros i l [[<- _]|[_ Hl]]%lookup_insert_Some; [lia|].
    apply Hb in Hl. lia.
Qed.

(** X10.  The queue [Subscribe] makes holds the stored alerts, each entry of
    the store once, and is left with [200 - n] free places for later alerts
    when the store has [n] alerts, none when [n] is 200 or more. *)
Theorem Subscribe_snapshot_and_room a h :
  ∃ a' h' it q,
    Subscribe a h = Proceed (a', h', it)
    ∧ queues h' !! it_ch it = Some q
    ∧ chan_closed q = false
    ∧ chan_buf q ≡ₚ (map_to_list (alerts a)).*2
    ∧ (∀ alert, alert ∈ chan_buf q ↔ ∃ fp, alerts a !! fp = Some alert)
    ∧ length (chan_buf q) = size (alerts a)
    ∧ chan_cap q - Z.of_nat (length (chan_buf q))
      = Z.max 0 (200 - Z.of_nat (size (alerts a))).
Proof.
  destruct (Subscribe_proceeds a h) as (a' & h' & it & HS & Hq & _).
  cbn [getPending fst] in Hq.
  eexists a', h', it, _. split; [done|]. split; [done|]. simpl.
  assert (Hlen : length (map_to_list (alerts a)).*2 = size (alerts a))
    by (by rewrite length_fmap, length_map_to_list).
  split; [done|]. split; [done|]. split; [|split; [done|]].
  - intros alert. rewrite list_elem_of_fmap. split.
    + intros ([fp x] & -> & Hin%elem_of_map_to_list). by exists fp.
    + intros (fp & Hfp). exists (fp, alert). split; [done|].
      by apply elem_of_map_to_list.
  - rewrite max_spec, Hlen. unfold alertChannelLength. lia.
Qed.

(** X11.  When the store holds 200 alerts or more, the queue [Subscribe]
    makes is full from the start: the next call of [Put] with an alert waits
    in its first broadcast until the new subscriber receives or cancels. *)
Theorem Subscribe_full_then_Put_waits a h a' h' it pick alert rest :
  wf a h = true →
  (200 ≤ size (alerts a))%nat →
  Subscribe a h = Proceed (a', h', it) →
  ∃ a'' h'', Put pick a' h' (alert :: rest) = PutParked a'' h''.
Proof.
  intros Hwf Hsize HS.
  destruct (wf_Subscribe a h Hwf) as (a1 & h1 & it1 & HS1 & Hwf' & _).
  destruct (Subscribe_proceeds a h) as (a2 & h2 & it2 & HS2 & Hq & Hl).
  rewrite HS in HS1, HS2. injection HS1 as <- <- <-. injection HS2 as <- <- <-.
  destruct (Subscribe_result _ _ _ _ _ HS) as (_ & _ & Hsig & _).
  cbn [getPending fst] in Hq.
  destruct (Put_parks_on_full pick a' h' alert rest (next a)
              (mkListening (it_ch it) (it_done it)) Hwf' Hl)
    as (a'' & h'' & HP & _).
  - unfold queue_at, chan_has_room. simpl. rewrite Hq. simpl.
    apply Z.ltb_ge. rewrite max_spec, length_fmap, length_map_to_list.
    unfold alertChannelLength. lia.
  - unfold signal_at. simpl. by rewrite Hsig, lookup_insert_eq.
  - by exists a'', h''.
Qed.

(** *** The garbage collector *)

(** What the loop of lines 68-76 leaves under a fingerprint. *)
Lemma gcAlerts_lookup clock a fp :
  alerts (gcAlerts clock a) !! fp
  = match alerts a !! fp with
    | Some alert => if Before (EndsAt alert) (clock fp) then None else Some alert
    | None => None
    end.
Proof.
  unfold gcAlerts.
  destruct (gcAlerts_foldl clock a (map_to_list (alerts a))) as (-> & _).
  rewrite (foldl_delete_lookup (λ e, Before (EndsAt e.2) (clock e.1))).
  destruct (decide _) as [Hin|Hnin].
  - apply elem_of_expired in Hin as (alert & -> & Hlt).
    unfold Before. by destruct (Z.ltb_spec (EndsAt alert) (clock fp)); [|lia].
  - destruct (alerts a !! fp) as [alert|] eqn:Hm; [|done].
    unfold Before. destruct (Z.ltb_spec (EndsAt alert) (clock fp)); [|done].
    destruct Hnin. apply elem_of_expired. by exists alert.
Qed.

Lemma sweep_alerts clock a h :
  alerts (outcome_state (sweep clock a h)).1 = alerts (gcAlerts clock a)
  ∧ marker (outcome_state (sweep clock a h)).1 = marker (gcAlerts clock a).
Proof.
  unfold sweep, gcListeners.
  by destruct (gcListeners_loop_frame (gcAlerts clock a) h
                 (map_to_list (listeners (gcAlerts clock a)))) as (-> & -> & _).
Qed.

(** X12.  A sweep only takes entries out of the store: what it leaves was
    there before and has not ended before the clock reading of its visit.
    A second sweep at the same clock readings then changes nothing in the
    store and tells the marker nothing. *)
Theorem sweep_leaves_unexpired clock a h :
  let a1 := (outcome_state (sweep clock a h)).1 in
  (∀ fp alert, alerts a1 !! fp = Some alert →
               alerts a !! fp = Some alert ∧ clock fp ≤ EndsAt alert)
  ∧ (∀ h1, let a2 := (outcome_state (sweep clock a1 h1)).1 in
           alerts a2 = alerts a1 ∧ marker a2 = marker a1).
Proof.
  intros a1.
  assert (Hleft : ∀ fp alert, alerts a1 !! fp = Some alert →
                    alerts a !! fp = Some alert ∧ clock fp ≤ EndsAt alert).
  { intros fp alert. subst a1.
    destruct (sweep_alerts clock a h) as [-> _]. rewrite gcAlerts_lookup.
    destruct (alerts a !! fp) as [x|]; [|done]. unfold Before.
    destruct (Z.ltb_spec (EndsAt x) (clock fp)); [done|].
    intros [= ->]. split; [done|lia]. }
  split; [done|]. intros h1 a2. subst a2.
  destruct (sweep_alerts clock a1 h1) as [-> ->]. split.
  - apply map_eq. intros fp. rewrite gcAlerts_lookup.
    destruct (alerts a1 !! fp) as [x|] eqn:E; [|done].
    apply Hleft in E as [_ Hle]. unfold Before.
    by destruct (Z.ltb_spec (EndsAt x) (clock fp)); [lia|].
  - unfold gcAlerts.
    destruct (gcAlerts_foldl clock a1 (map_to_list (alerts a1)))
      as (_ & -> & _).
    rewrite (elem_of_nil_inv (filter _ _).*1); [by rewrite app_nil_r|].
    intros fp (alert & E & Hlt)%elem_of_expired.
    apply Hleft in E as [_ Hle]. lia.
Qed.

Lemma Put_marker pick a h batch :
  marker (put_state (Put pick a h batch)).1 = marker a.
Proof.
  revert pick a h. induction batch as [|alert rest IH]; intros pick a h;
    simpl; [done|].
  destruct (broadcast _ _ _ _); simpl; [|done..].
  by rewrite IH.
Qed.

(** X13.  An alert that is put and whose stored form has ended before the
    clock reading of the next sweep is forgotten by that sweep: [Get] then
    returns [ErrNotFound], and the sweep has called [Marker.Delete] for its
    fingerprint, once. *)
Theorem Put_expired_then_sweep pick a h alert clock :
  EndsAt (resolve (alerts a) alert) < clock (Alert_Fingerprint alert) →
  let s1 := put_state (Put pick a h [alert]) in
  let a2 := (outcome_state (sweep clock s1.1 s1.2)).1 in
  Get a2 (Alert_Fingerprint alert) = (None, Some ErrNotFound)
  ∧ ∃ deleted, marker a2 = marker a ++ deleted
               ∧ NoDup deleted
               ∧ Alert_Fingerprint alert ∈ deleted.
Proof.
  intros Hended s1 a2. subst a2.
  destruct (sweep_alerts clock s1.1 s1.2) as [Ha Hm].
  assert (Hstored : alerts s1.1 !! Alert_Fingerprint alert
                    = Some (resolve (alerts a) alert)).
  { subst s1. rewrite Put_one_store. unfold store. by rewrite lookup_insert_eq. }
  split.
  - unfold Get. rewrite Ha, gcAlerts_lookup, Hstored. unfold Before.
    by destruct (Z.ltb_spec (EndsAt (resolve (alerts a) alert))
                   (clock (Alert_Fingerprint alert))); [|lia].
  - rewrite Hm. unfold gcAlerts.
    destruct (gcAlerts_foldl clock s1.1 (map_to_list (alerts s1.1)))
      as (_ & -> & _).
    eexists. split; [|split].
    + subst s1. by rewrite Put_marker.
    + apply NoDup_expired.
    + apply elem_of_expired. eauto.
Qed.

(** The loop of lines 78-86 leaves in the registry a listener whose [done]
    is not ready. *)
Lemma gcListener_keeps_unready a h (e : Z * listeningAlerts) a1 h1 c :
  gcListener a h e = Proceed (a1, h1) →
  recv_ready (signal_at h c) = false →
  recv_ready (signal_at h1 c) = false.
Proof.
  unfold gcListener, close_queue.
  destruct (recv_ready (signal_at h (l_done e.2))) eqn:Hr;
    [|by intros [= <- <-]].
  destruct (chan_recv _) as [[x d']| |]; [|done..]. simpl.
  destruct (queues h !! l_alerts e.2) as [q|]; [|done].
  destruct (chan_close q); [|done..].
  intros [= <- <-] Hc. unfold signal_at. simpl.
  destruct (decide (c = l_done e.2)) as [->|Hne]; [congruence|].
  by rewrite lookup_insert_ne.
Qed.

Lemma gcListener_next a h (e : Z * listeningAlerts) a1 h1 :
  gcListener a h e = Proceed (a1, h1) →
  next a1 = next a
  ∧ (recv_ready (signal_at h (l_done e.2)) = false → listeners a1 = listeners a)
  ∧ ∀ i, i ≠ e.1 → listeners a1 !! i = listeners a !! i.
Proof.
  unfold gcListener, close_queue.
  destruct (recv_ready (signal_at h (l_done e.2))) eqn:Hr;
    [|by intros [= <- <-]].
  destruct (chan_recv _) as [[x d']| |]; [|done..]. simpl.
  destruct (queues h !! l_alerts e.2) as [q|]; [|done].
  destruct (chan_close q); [|done..].
  intros [= <- <-]. simpl. split; [done|]. split; [done|].
  intros i Hne. by rewrite lookup_delete_ne.
Qed.

Lemma gcListeners_loop_keeps a h (ls : list (Z * listeningAlerts)) a' h' i :
  gcListeners_loop a h ls = Done (a', h') →
  (∀ e, e ∈ ls → e.1 = i → recv_ready (signal_at h (l_done e.2)) = false) →
  listeners a' !! i = listeners a !! i ∧ next a' = next a.
Proof.
  revert a h. induction ls as [|e ls IH]; intros a h; simpl.
  - by intros [= <- <-].
  - destruct (gcListener a h e) as [[a1 h1]| |] eqn:E; [|done..].
    intros Hloop Hlive.
    destruct (gcListener_next _ _ _ _ _ E) as (Hn & Hsame & Hother).
    destruct (IH a1 h1 Hloop) as [-> ->].
    + intros e' Hin He'. eapply gcListener_keeps_unready; [done|].
      apply Hlive; [by right|done].
    + split; [|done]. destruct (decide (i = e.1)) as [->|Hne].
      * rewrite Hsame; [done|]. apply Hlive; [by left|done].
      * by apply Hother.
Qed.

(** X14.  From a state the operations produce a sweep runs to its end
    without a panic and leaves such a state; a registered listener whose
    [done] is not ready stays registered with its queue as it was, and
    [a.next] is not changed. *)
Theorem sweep_keeps_live clock a h i (l : listeningAlerts) :
  wf a h = true →
  listeners a !! i = Some l →
  recv_ready (signal_at h (l_done l)) = false →
  ∃ a' h',
    sweep clock a h = Done (a', h')
    ∧ wf a' h' = true
    ∧ listeners a' !! i = Some l
    ∧ queues h' !! l_alerts l = queues h !! l_alerts l
    ∧ next a' = next a.
Proof.
  intros Hwf Hl Hlive.
  destruct (sweep_ok clock a h Hwf) as (a' & h' & Hsweep & Hwf' & _).
  exists a', h'. split; [done|]. split; [done|].
  unfold sweep, gcListeners in Hsweep. rewrite gcAlerts_listeners in Hsweep.
  destruct (gcListeners_loop_keeps _ _ _ _ _ i Hsweep) as [Hi Hn].
  { intros [j l'] Hin%elem_of_map_to_list [= ->]. simpl in *. congruence. }
  rewrite gcAlerts_listeners in Hi.
  assert (Hnext : next (gcAlerts clock a) = next a).
  { unfold gcAlerts.
    by destruct (gcAlerts_foldl clock a (map_to_list (alerts a)))
      as (_ & _ & _ & _ & ->). }
  split; [by rewrite Hi|]. split; [|by rewrite Hn].
  unfold wf in Hwf. apply andb_true_iff in Hwf as [Hall Hnd].
  apply bool_decide_eq_true in Hnd.
  destruct (gcListeners_loop_ok (gcAlerts clock a) h
              (map_to_list (listeners a)) Hnd)
    as (a2 & h2 & Hloop & _ & _ & _ & _ & Hk).
  { intros e Hin%list_elem_of_In. revert e Hin. by apply forallb_forall. }
  rewrite Hloop in Hsweep. injection Hsweep as <- <-.
  apply (Hk (i, l)); [by apply elem_of_map_to_list|].
  simpl. by rewrite Hi.
Qed.

Lemma sweep_subset clock a h fp alert :
  alerts (outcome_state (sweep clock a h)).1 !! fp = Some alert →
  alerts a !! fp = Some alert.
Proof.
  destruct (sweep_alerts clock a h) as [-> _]. rewrite gcAlerts_lookup.
  destruct (alerts a !! fp) as [x|]; [|done].
  by destruct (Before _ _).
Qed.

(** X15.  The goroutine of [runGC] does not leave its loop while [stopGC]
    is open, however many turns it takes; and whatever it does it closes
    [stopGC] never and adds nothing to the store. *)
Theorem runGC_runs_until_closed turns a h :
  let r := runGC turns a h in
  (recv_ready (stopGC a) = false → r.1 ≠ GcReturned)
  ∧ stopGC r.2.1 = stopGC a
  ∧ ∀ fp alert, alerts r.2.1 !! fp = Some alert → alerts a !! fp = Some alert.
Proof.
  intros r. subst r. split; [apply runGC_open_never_returns|].
  revert a h. induction turns as [|t rest IH]; intros a h; simpl; [done|].
  destruct (runGC_select a t) as [[]| |]; simpl; try done.
  pose proof (sweep_stopGC (gc_clock t) a h) as Hs.
  pose proof (sweep_subset (gc_clock t) a h) as Hsub.
  destruct (sweep (gc_clock t) a h) as [[a' h']|s|s]; simpl in *; [|done..].
  destruct (IH a' h') as [-> Hrest]. split; [done|]. eauto.
Qed.

(** *** GetPending *)

(** X16.  [GetPending] registers nothing, and the channel it makes is a new
    one that belongs to no listener: from a state the operations produce the
    state stays such, and no later [Put] and no sweep sends into that channel
    or closes it. *)
Theorem GetPending_is_isolated a h :
  wf a h = true →
  let r := GetPending a h in
  wf a r.1.1 = true
  ∧ queues h !! it_ch r.1.2 = None
  ∧ it_ch r.1.2 = p_ch r.2 ∧ it_done r.1.2 = p_done r.2
  ∧ (∀ pick batch,
       queues (put_state (Put pick a r.1.1 batch)).2 !! it_ch r.1.2
       = Some (make_chan alertChannelLength))
  ∧ (∀ clock,
       queues (outcome_state (sweep clock a r.1.1)).2 !! it_ch r.1.2
       = Some (make_chan alertChannelLength)).
Proof.
  intros Hwf r. subst r. unfold GetPending. cbn [getPending]. simpl.
  assert (Hb := Hwf). apply wf_spec in Hb as [Hok Hinj].
  assert (Hnew : ∀ i l, listeners a !! i = Some l →
                        l_alerts l ≠ fresh_loc (queues h)).
  { intros i l Hi Heq. destruct (Hok i l Hi) as (q & Hqq & _).
    by rewrite Heq, fresh_loc_None in Hqq. }
  set (h' := {| queues := <[fresh_loc (queues h) := make_chan alertChannelLength]>
                            (queues h);
                signals := <[fresh_loc (signals h) := make_chan 0]> (signals h) |}).
  assert (Hwf' : wf a h' = true).
  { apply wf_spec. split; [|done]. intros i l Hl.
    destruct (Hok i l Hl) as (q & Hq & Hopen). exists q. split; [|done].
    subst h'. simpl. rewrite lookup_insert_ne; [done|].
    intros Heq. by apply (Hnew i l). }
  split; [done|]. split; [apply fresh_loc_None|]. split; [done|].
  split; [done|]. split.
  - intros pick batch.
    destruct (Put_heap pick a h' batch) as (_ & _ & Ho).
    rewrite Ho; [by subst h'; simpl; rewrite lookup_insert_eq|].
    intros i l Hl. by apply (Hnew i l).
  - intros clock. unfold sweep, gcListeners.
    assert (Hwf2 := Hwf'). rewrite <- (wf_gcAlerts clock) in Hwf2.
    unfold wf in Hwf2. apply andb_true_iff in Hwf2 as [Hall Hnd].
    apply bool_decide_eq_true in Hnd.
    destruct (gcListeners_loop_ok (gcAlerts clock a) h'
                (map_to_list (listeners (gcAlerts clock a))) Hnd)
      as (a2 & h2 & -> & _ & _ & Ho & _).
    { intros e Hin%list_elem_of_In. revert e Hin. by apply forallb_forall. }
    simpl. rewrite Ho; [by subst h'; simpl; rewrite lookup_insert_eq|].
    rewrite gcAlerts_listeners.
    intros (l & Heq & ([i l'] & -> & Hin%elem_of_map_to_list)%list_elem_of_fmap)
             %list_elem_of_fmap.
    simpl in Heq. symmetry in Heq. by apply (Hnew i l').
Qed.

(** The goroutine of [GetPending] with an open queue that has room for what
    it has to send, and a [done] that is not ready: after one step for each
    alert and one more it has sent them all, in order, has closed the queue
    and has left. *)
Lemma producer_run_sends picks h xs ch dn (q : chan Alert) :
  queues h !! ch = Some q →
  chan_closed q = false →
  Z.of_nat (length (chan_buf q)) + Z.of_nat (length xs) ≤ chan_cap q →
  recv_ready (signal_at h dn) = false →
  length picks = S (length xs) →
  ∃ h', producer_run picks h (Some (mkProducer xs ch dn)) = Proceed (h', None)
        ∧ queues h' !! ch
          = Some {| chan_buf := chan_buf q ++ xs; chan_cap := chan_cap q;
                    chan_closed := true |}
        ∧ signals h' = signals h.
Proof.
  revert picks h q. induction xs as [|x xs IH];
    intros picks h q Hq Hopen Hfit Hlive Hlen.
  - destruct picks as [|pk [|? ?]]; [done| |done].
    cbn [producer_run producer_step p_pending p_ch p_done].
    unfold close_queue. rewrite Hq. unfold chan_close. rewrite Hopen.
    eexists. split; [reflexivity|]. simpl.
    by rewrite lookup_insert_eq, app_nil_r.
  - destruct picks as [|pk picks]; [done|]. simpl in Hlen, Hfit.
    assert (Hroom : chan_has_room q = true).
    { unfold chan_has_room. apply Z.ltb_lt. lia. }
    cbn [producer_run producer_step p_pending p_ch p_done].
    assert (Hat : queue_at h ch = q) by (unfold queue_at; by rewrite Hq).
    rewrite Hat. unfold select_case, send_ready.
    rewrite Hopen, Hroom, Hlive. cbn [orb].
    unfold chan_send. rewrite Hopen, Hroom.
    destruct (IH picks (set_queue h ch
                {| chan_buf := chan_buf q ++ [x]; chan_cap := chan_cap q;
                   chan_closed := false |})
                {| chan_buf := chan_buf q ++ [x]; chan_cap := chan_cap q;
                   chan_closed := false |})
      as (h' & -> & Hq' & Hs'); simpl.
    + by rewrite lookup_insert_eq.
    + done.
    + rewrite length_app. simpl. lia.
    + done.
    + lia.
    + exists h'. split; [done|]. split; [|done].
      simpl in Hq'. by rewrite Hq', <- app_assoc.
Qed.

(** X17.  When the store holds at most 200 alerts and the consumer neither
    receives nor cancels meanwhile, the goroutine [GetPending] starts sends
    the whole snapshot into the channel of the iterator, in the order of the
    snapshot, then closes that channel and ends. *)
Theorem GetPending_delivers_snapshot a h picks :
  (size (alerts a) ≤ 200)%nat →
  length picks = S (size (alerts a)) →
  let r := GetPending a h in
  ∃ h', producer_run picks r.1.1 (Some r.2) = Proceed (h', None)
        ∧ queues h' !! it_ch r.1.2
          = Some {| chan_buf := (getPending a).1;
                    chan_cap := alertChannelLength;
                    chan_closed := true |}.
Proof.
  intros Hsize Hlen r. subst r. unfold GetPending. cbn [getPending]. simpl.
  assert (Hsnap : length (map_to_list (alerts a)).*2 = size (alerts a))
    by (by rewrite length_fmap, length_map_to_list).
  destruct (producer_run_sends picks
              {| queues := <[fresh_loc (queues h) := make_chan alertChannelLength]>
                             (queues h);
                 signals := <[fresh_loc (signals h) := make_chan 0]> (signals h) |}
              (map_to_list (alerts a)).*2
              (fresh_loc (queues h)) (fresh_loc (signals h))
              (make_chan alertChannelLength))
    as (h' & HP & Hq & _).
  - simpl. apply lookup_insert_eq.
  - done.
  - simpl. rewrite Hsnap. unfold alertChannelLength. lia.
  - unfold signal_at. simpl. by rewrite lookup_insert_eq.
  - by rewrite Hsnap.
  - exists h'. split; [exact HP|]. exact Hq.
Qed.

(** X18.  Once the consumer has closed [done], the goroutine of
    [GetPending] ends at the first [select] at which the runtime takes the
    [done] case, which it must when the channel is full; it sends nothing
    more and closes the channel with what is in it. *)
Theorem producer_stops_on_cancel pick h (p : producer) (q : chan Alert) :
  queues h !! p_ch p = Some q →
  chan_closed q = false →
  chan_closed (signal_at h (p_done p)) = true →
  pick = SelDone ∨ chan_has_room q = false →
  ∃ h', producer_step pick h p = Proceed (h', None)
        ∧ queues h' !! p_ch p
          = Some {| chan_buf := chan_buf q; chan_cap := chan_cap q;
                    chan_closed := true |}.
Proof.
  intros Hq Hopen Hdone Hpick.
  assert (Hr : recv_ready (signal_at h (p_done p)) = true).
  { unfold recv_ready. rewrite Hdone. by destruct (chan_buf _). }
  destruct (chan_recv_ready _ Hr) as (x & d' & Hrecv & _).
  unfold producer_step, close_queue, chan_close.
  destruct (p_pending p) as [|y rest].
  - rewrite Hq, Hopen. eexists. split; [reflexivity|]. simpl.
    by rewrite lookup_insert_eq.
  - assert (Hat : queue_at h (p_ch p) = q) by (unfold queue_at; by rewrite Hq).
    rewrite Hat. unfold select_case, send_ready. rewrite Hopen, Hr. cbn [orb].
    assert (Hcase : (if chan_has_room q then Some pick else Some SelDone)
                    = Some SelDone).
    { destruct Hpick as [Hp|Hp]; rewrite Hp; [by destruct (chan_has_room q)|done]. }
    rewrite Hcase, Hrecv. simpl. rewrite Hq, Hopen.
    eexists. split; [reflexivity|]. simpl. by rewrite lookup_insert_eq.
Qed.

End Operations.

(** ** The further properties at the sample data *)

Lemma Put_delivers_in_order_witness :
  chan_buf (queue_at
              (put_state (Put (λ _ _, SelSend) subscribed.1.1 subscribed.1.2
                            [alert_B; alert_later])).2
              (l_alerts subscriber))
  = chan_buf (queue_at subscribed.1.2 (l_alerts subscriber))
    ++ resolved_all (alerts subscribed.1.1) [alert_B; alert_later].
Proof.
  apply (Put_delivers_in_order (λ _ _, SelSend) subscribed.1.1 subscribed.1.2
           [alert_B; alert_later] 0 subscriber
           (put_state (Put (λ _ _, SelSend) subscribed.1.1 subscribed.1.2
                         [alert_B; alert_later])).1
           (put_state (Put (λ _ _, SelSend) subscribed.1.1 subscribed.1.2
                         [alert_B; alert_later])).2
           None); reflexivity.
Defined.

Lemma Put_returns_when_room_witness :
  wf subscribed.1.1 subscribed.1.2 = true
  ∧ ∃ h', Put (λ _ _, SelSend) subscribed.1.1 subscribed.1.2 [alert_B]
          = PutReturned
              (set_alerts subscribed.1.1
                 (store_all (alerts subscribed.1.1) [alert_B])) h' None.
Proof.
  split; [reflexivity|].
  apply (Put_returns_when_room (λ _ _, SelSend) subscribed.1.1 subscribed.1.2
           [alert_B]); [reflexivity|].
  intros i l Hl. right.
  assert (Hreg : listeners subscribed.1.1 = {[0 := subscriber]})
    by reflexivity.
  rewrite Hreg in Hl. apply lookup_singleton_Some in Hl as [_ <-].
  vm_compute. discriminate.
Defined.

Lemma Put_waits_on_full_listener_witness :
  chan_has_room (queue_at full_state.2 (l_alerts subscriber)) = false
  ∧ ∃ a' h', Put (λ _ _, SelSend) full_state.1 full_state.2 [alert_later]
             = PutParked a' h'
             ∧ alerts a' = store (alerts full_state.1) alert_later.
Proof.
  split; [reflexivity|].
  apply (Put_waits_on_full_listener (λ _ _, SelSend) full_state.1 full_state.2
           alert_later [] 0 subscriber); reflexivity.
Defined.

Lemma Put_keeps_wf_witness :
  wf subscribed.1.1 subscribed.1.2 = true
  ∧ wf (put_state (Put (λ _ _, SelDone) subscribed.1.1 subscribed.1.2
                     [alert_B])).1
       (put_state (Put (λ _ _, SelDone) subscribed.1.1 subscribed.1.2
                     [alert_B])).2
    = true.
Proof.
  split; [reflexivity|].
  apply (Put_keeps_wf (λ _ _, SelDone) subscribed.1.1 subscribed.1.2 [alert_B]).
  reflexivity.
Defined.

Lemma Put_merge_policy_in_batch_witness :
  alerts (put_state (Put (λ _ _, SelSend) fresh_provider no_heap
                       ([alert_A] ++ [alert_inside]))).1
    !! Alert_Fingerprint alert_inside
  = Some (if overlaps alert_A alert_inside
          then Merge alert_A alert_inside else alert_inside).
Proof.
  apply (Put_merge_policy_in_batch (λ _ _, SelSend) fresh_provider no_heap
           [alert_A] alert_inside provider_A no_heap None alert_A);
    reflexivity.
Defined.

Lemma Subscribe_keeps_wf_witness :
  wf subscribed.1.1 subscribed.1.2 = true
  ∧ ∃ a' h' it,
      Subscribe subscribed.1.1 subscribed.1.2 = Proceed (a', h', it)
      ∧ wf a' h' = true.
Proof.
  split; [reflexivity|].
  destruct (Subscribe_keeps_wf subscribed.1.1 subscribed.1.2 eq_refl)
    as (a' & h' & it & HS & Hwf & _).
  by exists a', h', it.
Defined.

Lemma Subscribe_fresh_id_witness :
  ids_below subscribed.1.1 = true
  ∧ listeners subscribed.1.1 !! next subscribed.1.1 = None
  ∧ next subscribed_again.1.1 = next subscribed.1.1 + 1.
Proof.
  split; [reflexivity|].
  destruct (Subscribe_fresh_id subscribed.1.1 subscribed.1.2
              subscribed_again.1.1 subscribed_again.1.2 subscribed_again.2)
    as (Hnone & _ & _ & Hnext & _).
  - reflexivity.
  - split; [vm_compute; discriminate | vm_compute; reflexivity].
  - reflexivity.
  - by split.
Defined.

Lemma Subscribe_full_then_Put_waits_witness :
  (200 ≤ size (alerts provider_many))%nat
  ∧ ∃ a'' h'', Put (λ _ _, SelSend) subscribed_many.1.1 subscribed_many.1.2
                 [alert_later] = PutParked a'' h''.
Proof.
  assert (Hsize : (200 ≤ size (alerts provider_many))%nat)
    by (vm_compute; lia).
  split; [exact Hsize|].
  apply (Subscribe_full_then_Put_waits provider_many no_heap
           subscribed_many.1.1 subscribed_many.1.2 subscribed_many.2
           (λ _ _, SelSend) alert_later []);
    [reflexivity | exact Hsize | vm_compute; reflexivity].
Defined.

Lemma Put_expired_then_sweep_witness :
  Get (outcome_state
         (sweep (λ _, 150)
            (put_state (Put (λ _ _, SelSend) fresh_provider no_heap [alert_A])).1
            (put_state (Put (λ _ _, SelSend) fresh_provider no_heap [alert_A])).2)).1
      (Alert_Fingerprint alert_A)
  = (None, Some ErrNotFound).
Proof.
  apply (Put_expired_then_sweep (λ _ _, SelSend) fresh_provider no_heap
           alert_A (λ _, 150)).
  vm_compute. reflexivity.
Defined.

Lemma sweep_keeps_live_witness :
  recv_ready (signal_at subscribed.1.2 (l_done subscriber)) = false
  ∧ ∃ a' h',
      sweep (λ _, 50) subscribed.1.1 subscribed.1.2 = Done (a', h')
      ∧ listeners a' !! 0 = Some subscriber.
Proof.
  split; [reflexivity|].
  destruct (sweep_keeps_live (λ _, 50) subscribed.1.1 subscribed.1.2
              0 subscriber eq_refl eq_refl eq_refl)
    as (a' & h' & Hs & _ & Hl & _).
  by exists a', h'.
Defined.

Lemma GetPending_is_isolated_witness :
  wf subscribed.1.1 subscribed.1.2 = true
  ∧ ∀ batch,
      queues (put_state
                (Put (λ _ _, SelSend) subscribed.1.1
                   (GetPending subscribed.1.1 subscribed.1.2).1.1 batch)).2
        !! it_ch (GetPending subscribed.1.1 subscribed.1.2).1.2
      = Some (make_chan alertChannelLength).
Proof.
  split; [reflexivity|].
  destruct (GetPending_is_isolated subscribed.1.1 subscribed.1.2 eq_refl)
    as (_ & _ & _ & _ & HP & _).
  intros batch. apply HP.
Defined.

Lemma GetPending_delivers_snapshot_witness :
  ∃ h', producer_run [SelSend; SelDone] pending.1.1 (Some pending.2)
        = Proceed (h', None)
        ∧ queues h' !! it_ch pending.1.2
          = Some {| chan_buf := [alert_A]; chan_cap := alertChannelLength;
                    chan_closed := true |}.
Proof.
  apply (GetPending_delivers_snapshot provider_A no_heap [SelSend; SelDone]).
  - vm_compute. lia.
  - reflexivity.
Defined.

Lemma producer_stops_on_cancel_witness :
  chan_closed (signal_at pending_cancelled (p_done pending.2)) = true
  ∧ ∃ h', producer_step SelDone pending_cancelled pending.2
          = Proceed (h', None)
          ∧ queues h' !! p_ch pending.2
            = Some {| chan_buf := []; chan_cap := alertChannelLength;
                      chan_closed := true |}.
Proof.
  split; [reflexivity|].
  apply (producer_stops_on_cancel SelDone pending_cancelled pending.2
           (make_chan alertChannelLength));
    [reflexivity | reflexivity | reflexivity | by left].
Defined.

End mem.
